(** * minici: the job store, its execution pipeline and the wait handler

    A shallow embedding of [ciserver.go] (package [minici]) and of
    [handleWait] from the REST server (package [main]).

    - Go strings are byte strings: [string].
    - A Go [error] is [option string]: [None] is [nil], [Some m] is an
      error whose [Error()] text is [m].
    - [map[JobID]*Job] is a [gmap] from identifiers to heap locations; the
      pointed-to records live in [heap], so that the aliasing between the
      map entry and the goroutine that runs the job is explicit.
    - The pipeline of a job is the list of its effects in program order:
      the writes to the record and the calls to the operating system, the
      git client and the launched process, each call with the answer it
      got.  The answers come from an oracle, one per job.
    - [NewJobID] (a ULID) is outside the repository: [ScheduleJob] takes the
      identifier it produced as an argument.
    - An execution is any interleaving of calls on the store with single
      steps of the goroutines.
    - [handleWait] runs in a world given as a function of time: the answers
      of the [CI] interface, the duration of each operation and the instant
      the request is cancelled. *)

From Stdlib Require Import ZArith Ascii String List Lia Bool.
From stdpp Require Import base option list gmap strings fin_maps sorting.

Local Open Scope string_scope.
Local Open Scope list_scope.
Local Open Scope stdpp_scope.
Local Open Scope Z_scope.

(** ** Data model *)

Definition JobID := string.

Inductive JobStatus :=
| JobStatusPending
| JobStatusRunning
| JobStatusSuccess
| JobStatusFailure.

Definition JobStatus_string (st : JobStatus) : string :=
  match st with
  | JobStatusPending => "pending"
  | JobStatusRunning => "running"
  | JobStatusSuccess => "success"
  | JobStatusFailure => "failure"
  end.

#[global] Instance JobStatus_eq_dec : EqDecision JobStatus.
Proof. solve_decision. Defined.

Definition error := option string.

Record Job := mkJob {
  ID : JobID;
  Status : JobStatus;
  RepoURI : string;
  Commit : string;
  Command : string;
  Logs : list string;
}.

#[global] Instance Job_eq_dec : EqDecision Job.
Proof. solve_decision. Defined.

Definition terminal (st : JobStatus) : bool :=
  match st with
  | JobStatusSuccess | JobStatusFailure => true
  | _ => false
  end.

(** ** The Go library functions the pipeline calls *)

Module strings.

Definition byte_val (b : ascii) : Z := Z.of_N (N_of_ascii b).

Definition newline : ascii := "010"%char.

(** [strings.Split(s, "\n")]: the pieces between the separators, one more
    piece than there are separators. *)
Fixpoint Split_nl (s : string) : list string :=
  match s with
  | EmptyString => [EmptyString]
  | String c r =>
      if Ascii.eqb c newline then EmptyString :: Split_nl r
      else match Split_nl r with
           | h :: t => String c h :: t
           | [] => [String c EmptyString]
           end
  end.

(** [utf8.DecodeRuneInString]: the first code point of [s] and its width in
    bytes; an invalid or truncated encoding decodes to U+FFFD, width 1. *)
Definition RuneError : Z := 65533.

Definition cont (b : Z) : bool := (128 <=? b) && (b <=? 191).

Definition DecodeRuneInString (s : string) : Z * nat :=
  match s with
  | EmptyString => (RuneError, 0%nat)
  | String c0 r0 =>
      let b0 := byte_val c0 in
      if b0 <? 128 then (b0, 1%nat)
      else
        match r0 with
        | EmptyString => (RuneError, 1%nat)
        | String c1 r1 =>
            let b1 := byte_val c1 in
            if (194 <=? b0) && (b0 <=? 223) then
              if cont b1
              then (Z.lor (Z.shiftl (Z.land b0 31) 6) (Z.land b1 63), 2%nat)
              else (RuneError, 1%nat)
            else
              let lo :=
                if b0 =? 224 then 160 else if b0 =? 240 then 144 else 128 in
              let hi :=
                if b0 =? 237 then 159 else if b0 =? 244 then 143 else 191 in
              if negb ((224 <=? b0) && (b0 <=? 244)) then (RuneError, 1%nat)
              else if negb ((lo <=? b1) && (b1 <=? hi)) then (RuneError, 1%nat)
              else
                match r1 with
                | EmptyString => (RuneError, 1%nat)
                | String c2 r2 =>
                    let b2 := byte_val c2 in
                    if negb (cont b2) then (RuneError, 1%nat)
                    else if b0 <? 240 then
                      (Z.lor (Z.shiftl (Z.land b0 15) 12)
                         (Z.lor (Z.shiftl (Z.land b1 63) 6) (Z.land b2 63)),
                       3%nat)
                    else
                      match r2 with
                      | EmptyString => (RuneError, 1%nat)
                      | String c3 _ =>
                          let b3 := byte_val c3 in
                          if negb (cont b3) then (RuneError, 1%nat)
                          else
                            (Z.lor (Z.shiftl (Z.land b0 7) 18)
                               (Z.lor (Z.shiftl (Z.land b1 63) 12)
                                  (Z.lor (Z.shiftl (Z.land b2 63) 6)
                                     (Z.land b3 63))),
                             4%nat)
                      end
                end
        end
  end.

(** [unicode.IsSpace]. *)
Definition IsSpace (r : Z) : bool :=
  ((9 <=? r) && (r <=? 13)) || (r =? 32) || (r =? 133) || (r =? 160)
  || (r =? 5760) || ((8192 <=? r) && (r <=? 8202))
  || (r =? 8232) || (r =? 8233) || (r =? 8239) || (r =? 8287)
  || (r =? 12288).

(** The runes of [s] in order, each with the bytes that encode it
    ([for _, r := range s]).  [skip] counts the bytes of the current rune
    that are still to be passed over. *)
Fixpoint runes_from (skip : nat) (s : string) : list (Z * string) :=
  match s with
  | EmptyString => []
  | String _ r =>
      match skip with
      | S k => runes_from k r
      | O =>
          let '(c, w) := DecodeRuneInString s in
          (c, substring 0 w s) :: runes_from (pred w) r
      end
  end.

Definition runes (s : string) : list (Z * string) := runes_from 0 s.

(** [strings.Fields]: the maximal runs of runes that are not white space.
    [cur] is the field being read, if any. *)
Fixpoint fields_of (cur : option string) (rs : list (Z * string))
  : list string :=
  match rs with
  | [] => match cur with Some f => [f] | None => [] end
  | (c, bytes) :: rest =>
      if IsSpace c then
        match cur with
        | Some f => f :: fields_of None rest
        | None => fields_of None rest
        end
      else
        fields_of (Some (match cur with Some f => f +:+ bytes | None => bytes end))
          rest
  end.

Definition Fields (s : string) : list string := fields_of None (runes s).

End strings.

(** ** Collaborators outside the repository

    What [os.MkdirTemp], the [gittools] client and the launched process
    answer.  One record per job: the pipeline calls each at most once. *)

Record Ext := mkExt {
  os_MkdirTemp : string -> string -> string * error;
  git_Clone : string -> string -> error;
  git_Open : string -> error;
  git_Checkout : string -> string -> error;
  cmd_CombinedOutput : string -> list string -> string -> string * error;
}.

(** ** Effects of the pipeline

    The writes to the job record and the calls to the collaborators, in
    program order.  A call carries the answer it got. *)

Inductive Eff :=
| SetStatus (st : JobStatus)
| AppendLog (line : string)
| MkdirTemp (r : string * error)
| Clone (uri dir : string) (r : error)
| Open (dir : string) (r : error)
| Checkout (dir commit : string) (r : error)
| Exec (name : string) (args : list string) (dir : string) (r : string * error)
| RemoveAll (dir : string).

#[global] Instance Eff_eq_dec : EqDecision Eff.
Proof. solve_decision. Defined.

(** A pipeline computation: the effects it performs and its result. *)
Definition Prog (A : Type) : Type := list Eff * A.

#[global] Instance Prog_ret : MRet Prog := fun A a => ([], a).
#[global] Instance Prog_bind : MBind Prog :=
  fun A B k m => let '(t1, a) := m in let '(t2, b) := k a in (t1 ++ t2, b).

Definition emit (e : Eff) : Prog unit := ([e], tt).

(** [defer d] around [body]: [d] runs when [body] returns. *)
Definition defer {A} (d : Prog unit) (body : Prog A) : Prog A :=
  a ← body; _ ← d; mret a.

Definition log (line : string) : Prog unit := emit (AppendLog line).

Section Pipeline.

Variable x : Ext.

Definition MkdirTemp_call (dir pattern : string) : Prog (string * error) :=
  let r := os_MkdirTemp x dir pattern in ([MkdirTemp r], r).

Definition Clone_call (uri dir : string) : Prog error :=
  let r := git_Clone x uri dir in ([Clone uri dir r], r).

Definition Open_call (dir : string) : Prog error :=
  let r := git_Open x dir in ([Open dir r], r).

Definition Checkout_call (dir commit : string) : Prog error :=
  let r := git_Checkout x dir commit in ([Checkout dir commit r], r).

Definition CombinedOutput_call (name : string) (args : list string)
  (dir : string) : Prog (string * error) :=
  let r := cmd_CombinedOutput x name args dir in ([Exec name args dir r], r).

(** The loop over the lines of the captured output. *)
Fixpoint log_output (lines : list string) : Prog unit :=
  match lines with
  | [] => mret tt
  | line :: rest =>
      _ ← (if decide (line ≠ "") then log ("> " +:+ line) else mret tt);
      log_output rest
  end.

Definition executeCommand (command dir : string) : Prog error :=
  _ ← log ("Executing command: " +:+ command);
  let cmdParts := strings.Fields command in
  match cmdParts with
  | [] =>
      _ ← log "Error: empty command";
      mret (Some "empty command")
  | name :: args =>
      '(output, err) ← CombinedOutput_call name args dir;
      _ ← log_output (strings.Split_nl output);
      match err with
      | Some e =>
          _ ← log ("Command execution failed: " +:+ e);
          mret (Some e)
      | None =>
          _ ← log "Command executed successfully";
          mret None
      end
  end.

Definition cloneAndCheckout (repoURI commit : string) : Prog (string * error) :=
  '(tempDir, err) ← MkdirTemp_call "" "ocuroot-ci-job-";
  match err with
  | Some e =>
      _ ← log ("Failed to create temp directory: " +:+ e);
      mret ("", Some e)
  | None =>
      _ ← log ("Cloning repository: " +:+ repoURI);
      err ← Clone_call repoURI tempDir;
      match err with
      | Some e =>
          _ ← log ("Failed to clone repository: " +:+ e);
          _ ← emit (RemoveAll tempDir);
          mret ("", Some e)
      | None =>
          err ← Open_call tempDir;
          match err with
          | Some e =>
              _ ← log ("Failed to open repository: " +:+ e);
              _ ← emit (RemoveAll tempDir);
              mret ("", Some e)
          | None =>
              _ ← log ("Checking out commit: " +:+ commit);
              err ← Checkout_call tempDir commit;
              match err with
              | Some e =>
                  _ ← log ("Failed to checkout commit: " +:+ e);
                  _ ← emit (RemoveAll tempDir);
                  mret ("", Some e)
              | None =>
                  _ ← log ("Repository ready at " +:+ tempDir);
                  mret (tempDir, None)
              end
          end
      end
  end.

(** The body of the goroutine started by [ScheduleJob]. *)
Definition ScheduleJob_go (repoURI commit command : string) : Prog unit :=
  _ ← emit (SetStatus JobStatusRunning);
  _ ← log "Starting job execution";
  '(tempDir, err) ← cloneAndCheckout repoURI commit;
  match err with
  | Some _ => emit (SetStatus JobStatusFailure)
  | None =>
      defer (emit (RemoveAll tempDir))
        (_ ← log "Repository ready for job execution";
         err ← executeCommand command tempDir;
         match err with
         | Some _ => emit (SetStatus JobStatusFailure)
         | None => emit (SetStatus JobStatusSuccess)
         end)
  end.

Definition pipeline (repoURI commit command : string) : list Eff :=
  fst (ScheduleJob_go repoURI commit command).

End Pipeline.

(** The effect of one step of the goroutine on the record it points to. *)
Definition apply_eff (j : Job) (e : Eff) : Job :=
  match e with
  | SetStatus st => mkJob (ID j) st (RepoURI j) (Commit j) (Command j) (Logs j)
  | AppendLog line =>
      mkJob (ID j) (Status j) (RepoURI j) (Commit j) (Command j) (Logs j ++ [line])
  | _ => j
  end.

Definition apply_effs (j : Job) (es : list Eff) : Job := fold_left apply_eff es j.

(** Projections of an effect list. *)
Definition status_writes (es : list Eff) : list JobStatus :=
  omap (fun e => match e with SetStatus st => Some st | _ => None end) es.

Definition log_writes (es : list Eff) : list string :=
  omap (fun e => match e with AppendLog l => Some l | _ => None end) es.

Definition is_exec (e : Eff) : bool :=
  match e with Exec _ _ _ _ => true | _ => false end.

Definition is_clone (e : Eff) : bool :=
  match e with Clone _ _ _ => true | _ => false end.

Definition is_checkout (e : Eff) : bool :=
  match e with Checkout _ _ _ => true | _ => false end.

(** Calls that reach outside the job record. *)
Definition is_external (e : Eff) : bool :=
  match e with SetStatus _ | AppendLog _ => false | _ => true end.

(** The temporary directories that exist after the effects [es], starting
    from the directories [fs]; [os.RemoveAll] is taken to succeed. *)
Fixpoint dirs_after (es : list Eff) (fs : list string) : list string :=
  match es with
  | [] => fs
  | MkdirTemp (d, None) :: rest => dirs_after rest (d :: fs)
  | RemoveAll d :: rest =>
      dirs_after rest (filter (fun d' => d' ≠ d) fs)
  | _ :: rest => dirs_after rest fs
  end.

(** A collaborator for which every step succeeds and [echo] prints. *)
Definition ext_ok : Ext :=
  mkExt (fun _ pat => ("/tmp/" +:+ pat +:+ "1", None))
        (fun _ _ => None) (fun _ => None) (fun _ _ => None)
        (fun name args _ =>
           if decide (name = "echo")
           then (match args with a :: _ => a | [] => "" end
                 +:+ String strings.newline "", None)
           else ("", Some "exit status 1")).

(** ** The job store

    [jobs] is the Go map; its values are pointers, here indices into
    [heap].  [goroutines] are the pipelines started by [ScheduleJob]: each
    holds the pointer it captured and the effects it still has to perform. *)

Record Goroutine := mkGo { target : nat; rest : list Eff }.

Record CIServer := mkCIServer {
  jobs : gmap JobID nat;
  heap : list Job;
  goroutines : list Goroutine;
}.

Definition NewCIServer : CIServer := mkCIServer ∅ [] [].

(** What a method does to the mutex, the map and the heap, in program
    order. *)
Inductive Act :=
| Lock | Unlock | RLock | RUnlock
| MapStore (k : JobID)
| MapLoad (k : JobID)
| MapRange
| Deref (p : nat)
| GoStmt (p : nat).

(** A method of the store: it may panic ([None], a nil dereference), and
    otherwise yields a result, the new state and the actions performed. *)
Definition Op (A : Type) : Type := CIServer -> option (A * CIServer * list Act).

#[global] Instance Op_ret : MRet Op := fun A a s => Some (a, s, []).
#[global] Instance Op_bind : MBind Op :=
  fun A B k m s =>
    match m s with
    | None => None
    | Some (a, s1, t1) =>
        match k a s1 with
        | None => None
        | Some (b, s2, t2) => Some (b, s2, t1 ++ t2)
        end
    end.

Definition act (a : Act) : Op unit := fun s => Some (tt, s, [a]).

Definition defer_op {A} (d : Op unit) (body : Op A) : Op A :=
  a ← body; _ ← d; mret a.

Definition deref (p : nat) : Op Job :=
  fun s => match heap s !! p with
           | Some j => Some (j, s, [Deref p])
           | None => None
           end.

Definition alloc (j : Job) : Op nat :=
  fun s => Some (length (heap s),
                 mkCIServer (jobs s) (heap s ++ [j]) (goroutines s), []).

Definition mapStore (k : JobID) (p : nat) : Op unit :=
  fun s => Some (tt, mkCIServer (<[k := p]> (jobs s)) (heap s) (goroutines s),
                 [MapStore k]).

Definition mapLoad (k : JobID) : Op (option nat) :=
  fun s => Some (jobs s !! k, s, [MapLoad k]).

(** [for k, v := range s.jobs]: Go leaves the order unspecified; the model
    takes the order of [map_to_list]. *)
Definition mapRange : Op (list (JobID * nat)) :=
  fun s => Some (map_to_list (jobs s), s, [MapRange]).

Definition spawn (p : nat) (body : list Eff) : Op unit :=
  fun s => Some (tt, mkCIServer (jobs s) (heap s) (goroutines s ++ [mkGo p body]),
                 [GoStmt p]).

Fixpoint derefs (ps : list nat) : Op (list Job) :=
  match ps with
  | [] => mret []
  | p :: rest => j ← deref p; js ← derefs rest; mret (j :: js)
  end.

Definition saveJob (job : nat) : Op unit :=
  _ ← act Lock;
  defer_op (act Unlock)
    (j ← deref job; mapStore (ID j) job).

(** [ScheduleJob]; [id] is what [NewJobID()] returned and [x] what the
    collaborators will answer to the pipeline of this job. *)
Definition ScheduleJob (id : JobID) (x : Ext) (repoURI commit command : string)
  : Op JobID :=
  job ← alloc (mkJob id JobStatusPending repoURI commit command []);
  _ ← saveJob job;
  _ ← spawn job (pipeline x repoURI commit command);
  j ← deref job;
  mret (ID j).

Definition ListJobs : Op (list JobID) :=
  _ ← act RLock;
  defer_op (act RUnlock)
    (kvs ← mapRange; mret (kvs.*1)).

Definition AllJobDetail : Op (list Job) :=
  _ ← act RLock;
  defer_op (act RUnlock)
    (kvs ← mapRange; derefs (kvs.*2)).

Definition JobDetail (jobID : JobID) : Op Job :=
  _ ← act RLock;
  defer_op (act RUnlock)
    (r ← mapLoad jobID;
     match r with
     | None => mret (mkJob jobID JobStatusFailure "" "" "" [])
     | Some job => deref job
     end).

Definition JobLogs (jobID : JobID) : Op (list string) :=
  r ← mapLoad jobID;
  match r with
  | None => mret []
  | Some job => j ← deref job; mret (Logs j)
  end.

(** The lock discipline: the map is read only with the mutex held (shared
    or exclusive) and written only with it held exclusively. *)
Inductive LockState := Free | Shared | Exclusive.

Fixpoint disciplined (st : LockState) (tr : list Act) : bool :=
  match tr with
  | [] => true
  | Lock :: tr' =>
      match st with Free => disciplined Exclusive tr' | _ => false end
  | Unlock :: tr' =>
      match st with Exclusive => disciplined Free tr' | _ => false end
  | RLock :: tr' =>
      match st with Free => disciplined Shared tr' | _ => false end
  | RUnlock :: tr' =>
      match st with Shared => disciplined Free tr' | _ => false end
  | MapStore _ :: tr' =>
      match st with Exclusive => disciplined st tr' | _ => false end
  | (MapLoad _ | MapRange) :: tr' =>
      match st with Free => false | _ => disciplined st tr' end
  | (Deref _ | GoStmt _) :: tr' => disciplined st tr'
  end.

(** ** Executions

    The calls made on the store and the steps of the goroutines, in any
    interleaving. *)
Inductive Action :=
| DoSchedule (id : JobID) (x : Ext) (repoURI commit command : string)
| DoStep (g : nat)
| DoListJobs
| DoAllJobDetail
| DoJobDetail (jobID : JobID)
| DoJobLogs (jobID : JobID).

Definition state_after {A} (m : Op A) (s : CIServer) : CIServer :=
  match m s with
  | Some (_, s', _) => s'
  | None => s
  end.

Definition step_goroutine (g : nat) (s : CIServer) : CIServer :=
  match goroutines s !! g with
  | Some (mkGo p (e :: es)) =>
      mkCIServer (jobs s)
        (alter (fun j => apply_eff j e) p (heap s))
        (<[g := mkGo p es]> (goroutines s))
  | _ => s
  end.

Definition exec (s : CIServer) (a : Action) : CIServer :=
  match a with
  | DoSchedule id x repoURI commit command =>
      state_after (ScheduleJob id x repoURI commit command) s
  | DoStep g => step_goroutine g s
  | DoListJobs => state_after ListJobs s
  | DoAllJobDetail => state_after AllJobDetail s
  | DoJobDetail jobID => state_after (JobDetail jobID) s
  | DoJobLogs jobID => state_after (JobLogs jobID) s
  end.

Definition run (s : CIServer) (acts : list Action) : CIServer :=
  fold_left exec acts s.

(** The states an execution passes through, after each action. *)
Fixpoint states (s : CIServer) (acts : list Action) : list CIServer :=
  match acts with
  | [] => []
  | a :: rest => exec s a :: states (exec s a) rest
  end.

(** The statuses of the record at [p] in those states, from its creation. *)
Definition status_history (p : nat) (sts : list CIServer) : list JobStatus :=
  omap (fun s => Status <$> heap s !! p) sts.

(** One step of the job lifecycle. *)
Inductive lifecycle : JobStatus -> JobStatus -> Prop :=
| lifecycle_stay st : lifecycle st st
| lifecycle_start : lifecycle JobStatusPending JobStatusRunning
| lifecycle_succeed : lifecycle JobStatusRunning JobStatusSuccess
| lifecycle_fail : lifecycle JobStatusRunning JobStatusFailure.

Fixpoint chain (h : list JobStatus) : Prop :=
  match h with
  | st :: ((st' :: _) as h') => lifecycle st st' ∧ chain h'
  | _ => True
  end.

(** The identifiers returned by the [ScheduleJob] calls of an execution. *)
Definition scheduled_ids (acts : list Action) : list JobID :=
  omap (fun a => match a with DoSchedule id _ _ _ _ => Some id | _ => None end)
    acts.

Definition list_jobs (s : CIServer) : list JobID :=
  match ListJobs s with Some (ids, _, _) => ids | None => [] end.

(** ** The wait handler

    [handleWait] is written against the [CI] interface.  The world it runs
    in is a function of time (nanoseconds): what the interface answers at
    each instant, how long an operation started at that instant takes, and
    when, if ever, the request context is cancelled. *)

Definition Nanosecond : Z := 1.
Definition Millisecond : Z := 1000000 * Nanosecond.
Definition Second : Z := 1000 * Millisecond.
Definition Minute : Z := 60 * Second.

Record World := mkWorld {
  ci_ListJobs : Z -> list JobID;
  ci_AllJobDetail : Z -> list Job;
  latency : Z -> Z;
  ctx_done_at : option Z;
}.

(** What the handler does that the outside can see, with the instant. *)
Inductive Ev :=
| CallListJobs (t : Z)
| CallAllJobDetail (t : Z)
| Sleep (t : Z) (d : Z).

Definition ev_time (e : Ev) : Z :=
  match e with CallListJobs t | CallAllJobDetail t | Sleep t _ => t end.

Definition is_poll (e : Ev) : bool :=
  match e with CallListJobs _ | CallAllJobDetail _ => true | Sleep _ _ => false end.

(** A handler computation from the current instant: [None] when the loop
    bound of the model is exhausted. *)
Definition Mon (A : Type) : Type := Z -> option (A * Z * list Ev).

#[global] Instance Mon_ret : MRet Mon := fun A a t => Some (a, t, []).
#[global] Instance Mon_bind : MBind Mon :=
  fun A B k m t =>
    match m t with
    | None => None
    | Some (a, t1, e1) =>
        match k a t1 with
        | None => None
        | Some (b, t2, e2) => Some (b, t2, e1 ++ e2)
        end
    end.

Record Response := mkResponse { code : Z; body : string }.

Definition StatusOK : Z := 200.
Definition StatusNoContent : Z := 204.
Definition StatusRequestTimeout : Z := 408.
Definition StatusInternalServerError : Z := 500.

(** [writeJSONNoContentType]: encodes [data] into the body; [statusCode] is
    not used by the function. *)
Definition writeJSONNoContentType (w : Response) (data : string) (statusCode : Z)
  : Response :=
  mkResponse (code w) data.

Inductive Outcome := NoJobs | Timeout | AllSucceeded | SomeFailed.

Definition outcome (r : Response) : option Outcome :=
  if decide (body r = "no jobs scheduled") then Some NoJobs
  else if decide (body r = "timeout waiting for jobs to complete") then Some Timeout
  else if decide (body r = "all jobs completed successfully") then Some AllSucceeded
  else if decide (body r = "one or more jobs failed") then Some SomeFailed
  else None.

Section Handler.

Variable w : World.

Definition time_Now : Mon Z := fun t => Some (t, t + latency w t, []).

Definition time_Since (start : Z) : Mon Z :=
  now ← time_Now; mret (now - start).

Definition time_Sleep (d : Z) : Mon unit :=
  fun t => Some (tt, t + d + latency w t, [Sleep t d]).

Definition s_ci_ListJobs : Mon (list JobID) :=
  fun t => Some (ci_ListJobs w t, t + latency w t, [CallListJobs t]).

Definition s_ci_AllJobDetail : Mon (list Job) :=
  fun t => Some (ci_AllJobDetail w t, t + latency w t, [CallAllJobDetail t]).

Definition out_of_fuel {A} : Mon A := fun _ => None.

(** [for time.Since(start) < 30*time.Second { ... }] *)
Fixpoint arrival_loop (fuel : nat) (start : Z) : Mon unit :=
  match fuel with
  | O => out_of_fuel
  | S fuel' =>
      elapsed ← time_Since start;
      if elapsed <? 30 * Second then
        jobIDs ← s_ci_ListJobs;
        if (0 <? length jobIDs)%nat then mret tt
        else _ ← time_Sleep (100 * Millisecond); arrival_loop fuel' start
      else mret tt
  end.

(** The inner loop of the drain phase: [allDone] after the last job, or
    [false] at the first job that is pending or running. *)
Fixpoint all_done (detail : list Job) : bool :=
  match detail with
  | [] => true
  | job :: rest =>
      if bool_decide (Status job = JobStatusPending)
         || bool_decide (Status job = JobStatusRunning)
      then false
      else all_done rest
  end.

(** The drain loop; [true] when it left through the timeout. *)
Fixpoint drain_loop (fuel : nat) (start : Z) : Mon bool :=
  match fuel with
  | O => out_of_fuel
  | S fuel' =>
      elapsed ← time_Since start;
      if 5 * Minute <? elapsed then mret true
      else
        detail ← s_ci_AllJobDetail;
        if all_done detail then mret false
        else _ ← time_Sleep (100 * Millisecond); drain_loop fuel' start
  end.

(** The last loop: the first job that is not a success decides. *)
Fixpoint first_not_success (detail : list Job) : option Job :=
  match detail with
  | [] => None
  | job :: rest =>
      if bool_decide (Status job ≠ JobStatusSuccess) then Some job
      else first_not_success rest
  end.

Definition handleWait_body (fuel : nat) : Mon Response :=
  let w0 := mkResponse StatusOK "" in
  startTime ← time_Now;
  start ← time_Now;
  _ ← arrival_loop fuel start;
  jobIDs ← s_ci_ListJobs;
  if (length jobIDs =? 0)%nat then
    mret (M:=Mon) (writeJSONNoContentType w0 "no jobs scheduled" StatusNoContent)
  else
    start ← time_Now;
    timed_out ← drain_loop fuel start;
    if (timed_out : bool) then
      mret (writeJSONNoContentType w0 "timeout waiting for jobs to complete"
              StatusRequestTimeout)
    else
      detail ← s_ci_AllJobDetail;
      match first_not_success detail with
      | Some _ =>
          mret (writeJSONNoContentType w0 "one or more jobs failed"
                  StatusInternalServerError)
      | None =>
          mret (writeJSONNoContentType w0 "all jobs completed successfully"
                  StatusOK)
      end.

(** What the goroutine started at the top of the handler prints: it
    waits for the handler to return or for the context to be done,
    whichever comes first. *)
Definition watcher (finished : Z) : string :=
  match ctx_done_at w with
  | Some c =>
      if c <? finished then "Context completed first"
      else "Function completed first"
  | None => "Function completed first"
  end.

Record Result := mkResult {
  response : Response;
  finished : Z;
  events : list Ev;
  printed : string;
}.

Definition handleWait (fuel : nat) (t0 : Z) : option Result :=
  match handleWait_body fuel t0 with
  | Some (r, t, evs) => Some (mkResult r t evs (watcher t))
  | None => None
  end.

End Handler.

(** Loop bound that is enough whenever operations take no negative time. *)
Definition enough : nat := 3002.

(** The world seen through a [CIServer] whose state at instant [t] is
    [srv t]. *)
Definition all_job_detail (s : CIServer) : list Job :=
  match AllJobDetail s with Some (js, _, _) => js | None => [] end.

Definition server_world (srv : Z -> CIServer) (lat : Z -> Z) (ctx : option Z)
  : World :=
  mkWorld (fun t => list_jobs (srv t)) (fun t => all_job_detail (srv t)) lat ctx.

(** ** Vocabulary of the statements *)

(** *** The pipeline *)

(** The pattern handed to [os.MkdirTemp]. *)
Definition temp_pattern : string := "ocuroot-ci-job-".

(** The line [executeCommand] logs last when a process was launched. *)
Definition final_log (err : error) : string :=
  match err with
  | Some e => "Command execution failed: " +:+ e
  | None => "Command executed successfully"
  end.

(** The effects of [cloneAndCheckout], by the first step that fails. *)
Inductive Acquired (x : Ext) (repoURI commit : string)
  : list Eff -> string * error -> Prop :=
| acq_mkdir_failed d e :
    os_MkdirTemp x "" temp_pattern = (d, Some e) ->
    Acquired x repoURI commit
      [MkdirTemp (d, Some e);
       AppendLog ("Failed to create temp directory: " +:+ e)]
      ("", Some e)
| acq_clone_failed d e :
    os_MkdirTemp x "" temp_pattern = (d, None) ->
    git_Clone x repoURI d = Some e ->
    Acquired x repoURI commit
      [MkdirTemp (d, None);
       AppendLog ("Cloning repository: " +:+ repoURI);
       Clone repoURI d (Some e);
       AppendLog ("Failed to clone repository: " +:+ e);
       RemoveAll d]
      ("", Some e)
| acq_open_failed d e :
    os_MkdirTemp x "" temp_pattern = (d, None) ->
    git_Clone x repoURI d = None ->
    git_Open x d = Some e ->
    Acquired x repoURI commit
      [MkdirTemp (d, None);
       AppendLog ("Cloning repository: " +:+ repoURI);
       Clone repoURI d None;
       Open d (Some e);
       AppendLog ("Failed to open repository: " +:+ e);
       RemoveAll d]
      ("", Some e)
| acq_checkout_failed d e :
    os_MkdirTemp x "" temp_pattern = (d, None) ->
    git_Clone x repoURI d = None ->
    git_Open x d = None ->
    git_Checkout x d commit = Some e ->
    Acquired x repoURI commit
      [MkdirTemp (d, None);
       AppendLog ("Cloning repository: " +:+ repoURI);
       Clone repoURI d None;
       Open d None;
       AppendLog ("Checking out commit: " +:+ commit);
       Checkout d commit (Some e);
       AppendLog ("Failed to checkout commit: " +:+ e);
       RemoveAll d]
      ("", Some e)
| acq_ready d :
    os_MkdirTemp x "" temp_pattern = (d, None) ->
    git_Clone x repoURI d = None ->
    git_Open x d = None ->
    git_Checkout x d commit = None ->
    Acquired x repoURI commit
      [MkdirTemp (d, None);
       AppendLog ("Cloning repository: " +:+ repoURI);
       Clone repoURI d None;
       Open d None;
       AppendLog ("Checking out commit: " +:+ commit);
       Checkout d commit None;
       AppendLog ("Repository ready at " +:+ d)]
      (d, None).

(** The effects that create or remove a directory. *)
Definition touches_fs (e : Eff) : bool :=
  match e with MkdirTemp _ | RemoveAll _ => true | _ => false end.

(** The record of a job once its pipeline has run to the end. *)
Definition job_after (x : Ext) (id : JobID) (repoURI commit command : string)
  : Job :=
  apply_effs (mkJob id JobStatusPending repoURI commit command [])
    (pipeline x repoURI commit command).

(** The effects the pipeline performs before it logs that the command is
    empty; [None] when it never logs that. *)
Fixpoint before_rejection (tr : list Eff) : option (list Eff) :=
  match tr with
  | [] => None
  | e :: rest =>
      if decide (e = AppendLog "Error: empty command") then Some []
      else cons e <$> before_rejection rest
  end.

(** The white space bytes of ASCII: tab, line feed, vertical tab, form
    feed, carriage return and space. *)
Definition asciiSpace (c : ascii) : bool :=
  ((9 <=? strings.byte_val c) && (strings.byte_val c <=? 13))
  || (strings.byte_val c =? 32).

(** A command is blank when every rune of it is white space. *)
Definition blank (s : string) : bool :=
  forallb (fun r => strings.IsSpace r.1) (strings.runes s).

(** A collaborator whose clone fails. *)
Definition ext_no_clone : Ext :=
  mkExt (os_MkdirTemp ext_ok) (fun _ _ => Some "repository not found")
        (git_Open ext_ok) (git_Checkout ext_ok) (cmd_CombinedOutput ext_ok).

(** A collaborator whose checkout fails. *)
Definition ext_no_checkout : Ext :=
  mkExt (os_MkdirTemp ext_ok) (git_Clone ext_ok) (git_Open ext_ok)
        (fun _ _ => Some "unknown revision") (cmd_CombinedOutput ext_ok).

(** *** The store *)

(** Where the record at a goroutine's pointer stands in the lifecycle,
    given the status writes the goroutine still has to perform. *)
Definition phase (st : JobStatus) (ws : list JobStatus) : Prop :=
  (st = JobStatusPending
   ∧ exists t, terminal t = true ∧ ws = [JobStatusRunning; t])
  ∨ (st = JobStatusRunning ∧ exists t, terminal t = true ∧ ws = [t])
  ∨ (terminal st = true ∧ ws = []).

(** Every goroutine points at the record with its own index and is in
    phase with it. *)
Definition aligned (s : CIServer) : Prop :=
  length (goroutines s) = length (heap s)
  ∧ forall g go, goroutines s !! g = Some go ->
      target go = g
      ∧ exists j, heap s !! g = Some j
                  ∧ phase (Status j) (status_writes (rest go)).

(** Every map entry points at a record that carries the entry's key. *)
Definition bound (s : CIServer) : Prop :=
  forall id p, jobs s !! id = Some p ->
    exists j, heap s !! p = Some j ∧ ID j = id.

(** The steps of the goroutines, as opposed to the calls on the store. *)
Definition is_step (a : Action) : bool :=
  match a with DoStep _ => true | _ => false end.

(** A store whose only job is running. *)
Definition one_job_running : CIServer :=
  run NewCIServer
    [DoSchedule "01J" ext_ok "/repo" "HEAD" "echo hello"; DoStep 0].

(** A store with one job that has run [echo hello] to the end. *)
Definition one_job_done : CIServer :=
  run NewCIServer
    (DoSchedule "01J" ext_ok "/repo" "HEAD" "echo hello"
       :: replicate 18 (DoStep 0)).

(** A store whose only job failed at the clone. *)
Definition one_job_failed : CIServer :=
  run NewCIServer
    (DoSchedule "01J" ext_no_clone "/gone" "HEAD" "echo hello"
       :: replicate 8 (DoStep 0)).

(** The same store one submission later: a second job, still pending. *)
Definition second_job_pending : CIServer :=
  exec one_job_done (DoSchedule "01K" ext_ok "/repo" "HEAD" "echo hello").

(** Two submissions, interleaved with steps of their goroutines and reads. *)
Definition two_jobs : list Action :=
  [DoSchedule "01J" ext_ok "/repo" "HEAD" "echo hello"; DoStep 0;
   DoSchedule "01K" ext_no_clone "/gone" "HEAD" "echo hello";
   DoListJobs; DoStep 1; DoStep 0; DoJobDetail "01J"; DoStep 1].

(** *** The wait handler *)

(** A world whose store never changes and whose operations take no time. *)
Definition still (s : CIServer) : World :=
  server_world (fun _ => s) (fun _ => 0) None.

(** A world in which every operation takes a microsecond and the second
    job is submitted 7.5 microseconds after the handler was entered. *)
Definition late_submission : World :=
  server_world
    (fun t => if t <? 7500 then one_job_done else second_job_pending)
    (fun _ => 1000) None.

(** A world in which the job runs for a second and the caller goes away
    one millisecond after the handler was entered. *)
Definition caller_gone : World :=
  server_world
    (fun t => if t <? 1 * Second then one_job_running else one_job_done)
    (fun _ => 0) (Some (1 * Millisecond)).

(** Polling stops within one poll interval of the cancellation. *)
Definition stops_on_cancel (w : World) (r : Result) : Prop :=
  forall c e,
    ctx_done_at w = Some c -> e ∈ events r -> is_poll e = true ->
    ev_time e <= c + 100 * Millisecond.

(** The world [w] with the cancellation instant replaced by [c]. *)
Definition with_ctx (w : World) (c : option Z) : World :=
  mkWorld (ci_ListJobs w) (ci_AllJobDetail w) (latency w) c.

(** What of a result does not come from the watcher goroutine. *)
Definition polling (r : Result) : Response * Z * list Ev :=
  (response r, finished r, events r).

(** ** Vocabulary of the further properties *)

(** The state of the mutex after the actions [tr]. *)
Fixpoint lock_after (st : LockState) (tr : list Act) : LockState :=
  match tr with
  | [] => st
  | Lock :: tr' => lock_after Exclusive tr'
  | RLock :: tr' => lock_after Shared tr'
  | (Unlock | RUnlock) :: tr' => lock_after Free tr'
  | _ :: tr' => lock_after st tr'
  end.

(** The working directory was acquired: every step of [cloneAndCheckout]
    succeeded and the directory is [d]. *)
Definition acquired (x : Ext) (repoURI commit d : string) : Prop :=
  os_MkdirTemp x "" temp_pattern = (d, None)
  ∧ git_Clone x repoURI d = None
  ∧ git_Open x d = None
  ∧ git_Checkout x d commit = None.

(** The whole pipeline went well: the directory was acquired, the command
    has a program name, and the process returned no error. *)
Definition runs_clean (x : Ext) (repoURI commit command : string) : Prop :=
  exists d name args,
    acquired x repoURI commit d
    ∧ strings.Fields command = name :: args
    ∧ (cmd_CombinedOutput x name args d).2 = None.

(** The lines with which the pipeline reports a failure with reason [e]. *)
Definition failure_lines (e : string) : list string :=
  ["Failed to create temp directory: " +:+ e;
   "Failed to clone repository: " +:+ e;
   "Failed to open repository: " +:+ e;
   "Failed to checkout commit: " +:+ e;
   "Error: empty command";
   "Command execution failed: " +:+ e].

(** No byte of [s] is a line feed. *)
Definition one_line (s : string) : bool :=
  forallb (fun c => negb (Ascii.eqb c strings.newline)) (list_ascii_of_string s).

(** [strings.Join(pieces, "\n")]. *)
Definition Join_nl (pieces : list string) : string :=
  String.concat (String strings.newline "") pieces.

(** No byte of [s] is ASCII white space. *)
Definition no_ascii_space (s : string) : bool :=
  forallb (fun c => negb (asciiSpace c)) (list_ascii_of_string s).

(** What every pipeline does up to the moment the command is looked at,
    when the directory [d] was acquired. *)
Definition acquire_effs (repoURI commit d : string) : list Eff :=
  [SetStatus JobStatusRunning; AppendLog "Starting job execution";
   MkdirTemp (d, None);
   AppendLog ("Cloning repository: " +:+ repoURI);
   Clone repoURI d None; Open d None;
   AppendLog ("Checking out commit: " +:+ commit);
   Checkout d commit None;
   AppendLog ("Repository ready at " +:+ d);
   AppendLog "Repository ready for job execution"].

(** The effects and the final log of a pipeline that launched [name]. *)
Definition launch_effs (x : Ext) (command d name : string) (args : list string)
  : list Eff :=
  [AppendLog ("Executing command: " +:+ command);
   Exec name args d (cmd_CombinedOutput x name args d)]
  ++ map (fun l => AppendLog ("> " +:+ l))
       (filter (fun l => l ≠ "")
          (strings.Split_nl (cmd_CombinedOutput x name args d).1))
  ++ [AppendLog (final_log (cmd_CombinedOutput x name args d).2);
      SetStatus (match (cmd_CombinedOutput x name args d).2 with
                 | Some _ => JobStatusFailure
                 | None => JobStatusSuccess
                 end);
      RemoveAll d].

(** Once the interface lists a job it keeps listing one. *)
Definition listing_grows (w : World) : Prop :=
  forall t t', t <= t' -> ci_ListJobs w t ≠ [] -> ci_ListJobs w t' ≠ [].

(** ** The REST layer

    The handlers of the REST server, on a [CIServer] as [main] wires them.
    A request arrives with its method, its path and the outcome of decoding
    its body; a handler leaves behind what it wrote: the content type, the
    status and the value handed to the JSON encoder. *)

Record JobRequest := mkJobRequest {
  Req_RepoURI : string;
  Req_Commit : string;
  Req_Command : string;
}.

Record JobResponse := mkJobResponse {
  Resp_ID : string;
  Resp_Status : string;
  Resp_Logs : list string;
  Resp_RepoURI : string;
  Resp_Commit : string;
  Resp_Command : string;
}.

Inductive Data :=
| DataJob (r : JobResponse)
| DataList (jobs : list string)
| DataError (message : string).

Record Written := mkWritten {
  content_type : string;
  status : Z;
  data : option Data;
}.

Record Request := mkRequest {
  Method : string;
  URL_Path : string;
  Body : option JobRequest;
}.

Definition StatusCreated : Z := 201.
Definition StatusBadRequest : Z := 400.
Definition StatusNotFound : Z := 404.
Definition StatusMethodNotAllowed : Z := 405.

Definition writeJSON (d : Data) (statusCode : Z) : Written :=
  mkWritten "application/json" statusCode (Some d).

Definition writeError (message : string) (statusCode : Z) : Written :=
  mkWritten "application/json" statusCode (Some (DataError message)).

(** [w.WriteHeader(statusCode)] and nothing else. *)
Definition WriteHeader (statusCode : Z) : Written :=
  mkWritten "" statusCode None.

(** Byte-wise order of strings, as Go compares them. *)
Definition string_le (a b : string) : Prop := String.leb a b = true.

#[global] Instance string_le_dec : RelDecision string_le.
Proof. intros a b. unfold string_le. apply _. Defined.

(** [sort.Strings]: the ascending arrangement of the strings. *)
Definition sort_Strings (l : list string) : list string :=
  merge_sort string_le l.

(** [strings.Split(s, sep)] for a separator of one byte. *)
Fixpoint Split_byte (sep : ascii) (s : string) : list string :=
  match s with
  | EmptyString => [EmptyString]
  | String c r =>
      if Ascii.eqb c sep then EmptyString :: Split_byte sep r
      else match Split_byte sep r with
           | h :: t => String c h :: t
           | [] => [String c EmptyString]
           end
  end.

(** [strings.TrimRight(s, cutset)] for a cutset of one byte. *)
Fixpoint TrimRight_byte (cut : ascii) (s : string) : string :=
  match s with
  | EmptyString => EmptyString
  | String c r =>
      match TrimRight_byte cut r with
      | EmptyString => if Ascii.eqb c cut then EmptyString else String c EmptyString
      | r' => String c r'
      end
  end.

Definition slash : ascii := "/"%char.

(** [id] is what [NewJobID()] returns and [x] what the collaborators
    answer, should the request be accepted. *)
Definition handleScheduleJob (id : JobID) (x : Ext) (r : Request) : Op Written :=
  match Body r with
  | None => mret (writeError "Invalid request body" StatusBadRequest)
  | Some req =>
      if String.eqb (Req_RepoURI req) "" || String.eqb (Req_Commit req) ""
         || String.eqb (Req_Command req) ""
      then
        mret (writeError
                "Missing required fields: repo_uri, commit, and command are required"
                StatusBadRequest)
      else
        jobID ← ScheduleJob id x (Req_RepoURI req) (Req_Commit req) (Req_Command req);
        mret (writeJSON (DataJob (mkJobResponse jobID "" [] "" "" "")) StatusCreated)
  end.

Definition handleListJobs : Op Written :=
  jobIDs ← ListJobs;
  mret (writeJSON (DataList (sort_Strings jobIDs)) StatusOK).

Definition handleJobStatus (jobIDStr : string) : Op Written :=
  detail ← JobDetail jobIDStr;
  mret (writeJSON
          (DataJob (mkJobResponse jobIDStr (JobStatus_string (Status detail)) []
                      (RepoURI detail) (Commit detail) (Command detail)))
          StatusOK).

Definition handleJobLogs (jobIDStr : string) : Op Written :=
  logs ← JobLogs jobIDStr;
  mret (writeJSON (DataJob (mkJobResponse jobIDStr "" logs "" "" "")) StatusOK).

(** The handler registered for "/api/jobs". *)
Definition route_jobs (id : JobID) (x : Ext) (r : Request) : Op Written :=
  if String.eqb (Method r) "GET" then handleListJobs
  else if String.eqb (Method r) "POST" then handleScheduleJob id x r
  else mret (WriteHeader StatusMethodNotAllowed).

(** The handler registered for "/api/jobs/". *)
Definition route_job (r : Request) : Op Written :=
  if negb (String.eqb (Method r) "GET") then
    mret (WriteHeader StatusMethodNotAllowed)
  else
    let pathSegments := Split_byte slash (TrimRight_byte slash (URL_Path r)) in
    if (length pathSegments <? 4)%nat then mret (WriteHeader StatusNotFound)
    else
      let jobID := default "" (pathSegments !! 3%nat) in
      if (length pathSegments =? 5)%nat
         && String.eqb (default "" (pathSegments !! 4%nat)) "logs"
      then handleJobLogs jobID
      else if (length pathSegments =? 4)%nat then handleJobStatus jobID
      else mret (WriteHeader StatusNotFound).



(** * Properties *)

(** ** Sample runs *)

Example Split_nl_hello :
  strings.Split_nl ("hello" +:+ String strings.newline "") = ["hello"; ""].
Proof. reflexivity. Qed.

Example Fields_go_test : strings.Fields "go test  ./..." = ["go"; "test"; "./..."].
Proof. vm_compute. reflexivity. Qed.

Example Fields_blank : strings.Fields "   " = [].
Proof. vm_compute. reflexivity. Qed.

(** A no-break space (U+00A0, bytes C2 A0) separates fields; a stray
    byte FF does not. *)
Example Fields_unicode :
  strings.Fields
    ("go" +:+ String "194"%char (String "160"%char "")
     +:+ "test" +:+ String "255"%char "x")
  = ["go"; "test" +:+ String "255"%char "x"].
Proof. vm_compute. reflexivity. Qed.

Example pipeline_echo :
  log_writes (pipeline ext_ok "/repo" "HEAD" "echo hello") =
    ["Starting job execution"; "Cloning repository: /repo";
     "Checking out commit: HEAD";
     "Repository ready at /tmp/ocuroot-ci-job-1";
     "Repository ready for job execution";
     "Executing command: echo hello"; "> hello";
     "Command executed successfully"].
Proof. vm_compute. reflexivity. Qed.

Example pipeline_checkout_failed :
  pipeline ext_no_checkout "/repo" "gone" "echo hello" =
    [SetStatus JobStatusRunning;
     AppendLog "Starting job execution";
     MkdirTemp ("/tmp/ocuroot-ci-job-1", None);
     AppendLog "Cloning repository: /repo";
     Clone "/repo" "/tmp/ocuroot-ci-job-1" None;
     Open "/tmp/ocuroot-ci-job-1" None;
     AppendLog "Checking out commit: gone";
     Checkout "/tmp/ocuroot-ci-job-1" "gone" (Some "unknown revision");
     AppendLog "Failed to checkout commit: unknown revision";
     RemoveAll "/tmp/ocuroot-ci-job-1";
     SetStatus JobStatusFailure].
Proof. vm_compute. reflexivity. Qed.

(** ** The pipeline *)

Lemma log_output_spec lines :
  log_output lines =
    (map (fun l => AppendLog ("> " +:+ l)) (filter (fun l => l ≠ "") lines), tt).
Proof.
  induction lines as [|l ls IH]; [reflexivity|].
  cbn [log_output]. rewrite IH. rewrite filter_cons.
  destruct (decide (l ≠ "")); reflexivity.
Qed.

Lemma executeCommand_launch x command dir name args :
  strings.Fields command = name :: args ->
  executeCommand x command dir =
    (AppendLog ("Executing command: " +:+ command)
       :: Exec name args dir (cmd_CombinedOutput x name args dir)
       :: map (fun l => AppendLog ("> " +:+ l))
            (filter (fun l => l ≠ "")
               (strings.Split_nl (cmd_CombinedOutput x name args dir).1))
       ++ [AppendLog (final_log (cmd_CombinedOutput x name args dir).2)],
     (cmd_CombinedOutput x name args dir).2).
Proof.
  intros HF. unfold executeCommand, CombinedOutput_call. rewrite HF.
  destruct (cmd_CombinedOutput x name args dir) as [output err].
  cbn. rewrite log_output_spec. destruct err; cbn; rewrite ?app_nil_r; reflexivity.
Qed.

Lemma executeCommand_blank x command dir :
  strings.Fields command = [] ->
  executeCommand x command dir =
    ([AppendLog ("Executing command: " +:+ command);
      AppendLog "Error: empty command"], Some "empty command").
Proof. intros HF. unfold executeCommand. rewrite HF. reflexivity. Qed.

Lemma cloneAndCheckout_cases x repoURI commit :
  Acquired x repoURI commit
    (cloneAndCheckout x repoURI commit).1 (cloneAndCheckout x repoURI commit).2.
Proof.
  unfold cloneAndCheckout, MkdirTemp_call, Clone_call, Open_call, Checkout_call.
  destruct (os_MkdirTemp x "" "ocuroot-ci-job-") as [d [e|]] eqn:Hmk; cbn.
  { by apply acq_mkdir_failed. }
  destruct (git_Clone x repoURI d) as [e|] eqn:Hcl; cbn.
  { by apply acq_clone_failed. }
  destruct (git_Open x d) as [e|] eqn:Hop; cbn.
  { by apply acq_open_failed. }
  destruct (git_Checkout x d commit) as [e|] eqn:Hco; cbn.
  { by apply acq_checkout_failed. }
  by apply acq_ready.
Qed.

Lemma pipeline_unfold x repoURI commit command :
  pipeline x repoURI commit command =
    SetStatus JobStatusRunning :: AppendLog "Starting job execution"
    :: (cloneAndCheckout x repoURI commit).1
    ++ match (cloneAndCheckout x repoURI commit).2 with
       | (_, Some _) => [SetStatus JobStatusFailure]
       | (tempDir, None) =>
           AppendLog "Repository ready for job execution"
           :: (executeCommand x command tempDir).1
           ++ [SetStatus (match (executeCommand x command tempDir).2 with
                          | Some _ => JobStatusFailure
                          | None => JobStatusSuccess
                          end);
               RemoveAll tempDir]
       end.
Proof.
  unfold pipeline, ScheduleJob_go.
  destruct (cloneAndCheckout x repoURI commit) as [t1 [tempDir [e|]]];
    cbn -[executeCommand].
  { reflexivity. }
  destruct (executeCommand x command tempDir) as [t2 [e|]]; cbn;
    rewrite ?app_nil_r, <- ?app_assoc; reflexivity.
Qed.

Lemma default_last_cons {A} (a b : A) l :
  default a (last (b :: l)) = default b (last l).
Proof.
  destruct l as [|c l]; [reflexivity|].
  rewrite last_cons_cons. destruct (last (c :: l)) eqn:E; [reflexivity|].
  apply last_None in E. discriminate.
Qed.

Lemma apply_effs_spec es : forall j,
  apply_effs j es =
    mkJob (ID j) (default (Status j) (last (status_writes es)))
      (RepoURI j) (Commit j) (Command j) (Logs j ++ log_writes es).
Proof.
  unfold apply_effs.
  induction es as [|e es IH]; intros j; cbn.
  { rewrite app_nil_r. by destruct j. }
  rewrite IH. destruct e; cbn; try reflexivity.
  - f_equal. change (status_writes (SetStatus st :: es)) with (st :: status_writes es).
    symmetry. apply default_last_cons.
  - by rewrite <- app_assoc.
Qed.

Lemma status_writes_app a b :
  status_writes (a ++ b) = status_writes a ++ status_writes b.
Proof. apply omap_app. Qed.

Lemma log_writes_app a b : log_writes (a ++ b) = log_writes a ++ log_writes b.
Proof. apply omap_app. Qed.

Lemma log_writes_prefixed ls :
  log_writes (map (fun l => AppendLog ("> " +:+ l)) ls) =
    map (fun l => "> " +:+ l) ls.
Proof. induction ls; cbn; [reflexivity | by f_equal]. Qed.

Lemma status_writes_prefixed ls :
  status_writes (map (fun l => AppendLog ("> " +:+ l)) ls) = [].
Proof. induction ls; cbn; [reflexivity | done]. Qed.

Lemma is_exec_prefixed ls :
  List.filter is_exec (map (fun l => AppendLog ("> " +:+ l)) ls)
  = [].
Proof. induction ls; cbn; [reflexivity | done]. Qed.

Lemma cloneAndCheckout_ready x repoURI commit d :
  os_MkdirTemp x "" temp_pattern = (d, None) ->
  git_Clone x repoURI d = None ->
  git_Open x d = None ->
  git_Checkout x d commit = None ->
  cloneAndCheckout x repoURI commit =
    ([MkdirTemp (d, None);
      AppendLog ("Cloning repository: " +:+ repoURI);
      Clone repoURI d None;
      Open d None;
      AppendLog ("Checking out commit: " +:+ commit);
      Checkout d commit None;
      AppendLog ("Repository ready at " +:+ d)],
     (d, None)).
Proof.
  intros Hmk Hcl Hop Hco.
  unfold cloneAndCheckout, MkdirTemp_call, Clone_call, Open_call, Checkout_call.
  fold temp_pattern. rewrite Hmk. cbn. rewrite Hcl. cbn. rewrite Hop. cbn.
  rewrite Hco. reflexivity.
Qed.

Lemma cloneAndCheckout_clone_failed x repoURI commit d e :
  os_MkdirTemp x "" temp_pattern = (d, None) ->
  git_Clone x repoURI d = Some e ->
  cloneAndCheckout x repoURI commit =
    ([MkdirTemp (d, None);
      AppendLog ("Cloning repository: " +:+ repoURI);
      Clone repoURI d (Some e);
      AppendLog ("Failed to clone repository: " +:+ e);
      RemoveAll d],
     ("", Some e)).
Proof.
  intros Hmk Hcl.
  unfold cloneAndCheckout, MkdirTemp_call, Clone_call.
  fold temp_pattern. rewrite Hmk. cbn. rewrite Hcl. reflexivity.
Qed.

Lemma cloneAndCheckout_checkout_failed x repoURI commit d e :
  os_MkdirTemp x "" temp_pattern = (d, None) ->
  git_Clone x repoURI d = None ->
  git_Open x d = None ->
  git_Checkout x d commit = Some e ->
  cloneAndCheckout x repoURI commit =
    ([MkdirTemp (d, None);
      AppendLog ("Cloning repository: " +:+ repoURI);
      Clone repoURI d None;
      Open d None;
      AppendLog ("Checking out commit: " +:+ commit);
      Checkout d commit (Some e);
      AppendLog ("Failed to checkout commit: " +:+ e);
      RemoveAll d],
     ("", Some e)).
Proof.
  intros Hmk Hcl Hop Hco.
  unfold cloneAndCheckout, MkdirTemp_call, Clone_call, Open_call, Checkout_call.
  fold temp_pattern. rewrite Hmk. cbn. rewrite Hcl. cbn. rewrite Hop. cbn.
  rewrite Hco. reflexivity.
Qed.

(** C6: when the subprocess runs, the captured output is split at the
    newlines, every non-empty line is appended to the job's log behind the
    prefix "> ", empty lines are dropped, exactly one process is launched,
    and a nil error from it makes the job a success. *)
Theorem command_output_logged x id repoURI commit command d name args :
  os_MkdirTemp x "" temp_pattern = (d, None) ->
  git_Clone x repoURI d = None ->
  git_Open x d = None ->
  git_Checkout x d commit = None ->
  strings.Fields command = name :: args ->
  let r := cmd_CombinedOutput x name args d in
  let j := job_after x id repoURI commit command in
  Logs j =
    ["Starting job execution";
     "Cloning repository: " +:+ repoURI;
     "Checking out commit: " +:+ commit;
     "Repository ready at " +:+ d;
     "Repository ready for job execution";
     "Executing command: " +:+ command]
    ++ map (fun l => "> " +:+ l)
         (filter (fun l => l ≠ "") (strings.Split_nl r.1))
    ++ [final_log r.2]
  ∧ List.filter is_exec (pipeline x repoURI commit command)
    = [Exec name args d r]
  ∧ (r.2 = None -> Status j = JobStatusSuccess).
Proof.
  intros Hmk Hcl Hop Hco HF r j.
  assert (Hp : pipeline x repoURI commit command =
    [SetStatus JobStatusRunning; AppendLog "Starting job execution";
     MkdirTemp (d, None);
     AppendLog ("Cloning repository: " +:+ repoURI);
     Clone repoURI d None; Open d None;
     AppendLog ("Checking out commit: " +:+ commit);
     Checkout d commit None;
     AppendLog ("Repository ready at " +:+ d);
     AppendLog "Repository ready for job execution";
     AppendLog ("Executing command: " +:+ command);
     Exec name args d r]
    ++ map (fun l => AppendLog ("> " +:+ l))
         (filter (fun l => l ≠ "") (strings.Split_nl r.1))
    ++ [AppendLog (final_log r.2);
        SetStatus (match r.2 with
                   | Some _ => JobStatusFailure
                   | None => JobStatusSuccess
                   end);
        RemoveAll d]).
  { rewrite pipeline_unfold.
    rewrite (cloneAndCheckout_ready x repoURI commit d Hmk Hcl Hop Hco).
    cbn [fst snd]. rewrite (executeCommand_launch x command d name args HF).
    cbn [fst snd]. fold r. cbn. rewrite <- app_assoc. reflexivity. }
  subst j. unfold job_after. rewrite apply_effs_spec. rewrite Hp. cbn [Logs Status].
  rewrite !log_writes_app, !status_writes_app, status_writes_prefixed,
    log_writes_prefixed.
  split; [reflexivity|]. split.
  - rewrite !List.filter_app, is_exec_prefixed. reflexivity.
  - intros ->. reflexivity.
Qed.

Lemma command_output_logged_witness :
  Logs (job_after ext_ok "01J" "/repo" "HEAD" "echo hello") =
    ["Starting job execution";
     "Cloning repository: /repo";
     "Checking out commit: HEAD";
     "Repository ready at /tmp/ocuroot-ci-job-1";
     "Repository ready for job execution";
     "Executing command: echo hello";
     "> hello";
     "Command executed successfully"]
  ∧ Status (job_after ext_ok "01J" "/repo" "HEAD" "echo hello")
    = JobStatusSuccess.
Proof.
  destruct (command_output_logged ext_ok "01J" "/repo" "HEAD" "echo hello"
              "/tmp/ocuroot-ci-job-1" "echo" ["hello"]
              eq_refl eq_refl eq_refl eq_refl eq_refl) as (HL & _ & HS).
  split; [exact HL | exact (HS eq_refl)].
Defined.

Lemma filter_ne_notin (d : string) (fs : list string) :
  d ∉ fs -> filter (fun d' => d' ≠ d) fs = fs.
Proof.
  induction fs as [|a fs IH]; intros Hd; [reflexivity|].
  apply not_elem_of_cons in Hd as [Hne Hd].
  rewrite filter_cons_True by congruence. by rewrite IH.
Qed.

Lemma filter_ne_head (d : string) (fs : list string) :
  d ∉ fs -> filter (fun d' => d' ≠ d) (d :: fs) = fs.
Proof.
  intros Hd. rewrite filter_cons_False by (intros H; by apply H).
  by apply filter_ne_notin.
Qed.

Lemma dirs_after_inert es : forall rest fs,
  Forall (fun e => touches_fs e = false) es ->
  dirs_after (es ++ rest) fs = dirs_after rest fs.
Proof.
  induction es as [|e es IH]; intros rest fs Hall; [reflexivity|].
  apply Forall_cons in Hall as [He Hall].
  destruct e; cbn in He; try discriminate; cbn; by apply IH.
Qed.

Lemma executeCommand_inert x command dir :
  Forall (fun e => touches_fs e = false) (executeCommand x command dir).1.
Proof.
  destruct (strings.Fields command) as [|name args] eqn:HF.
  - rewrite executeCommand_blank by done. by repeat constructor.
  - rewrite (executeCommand_launch x command dir name args HF). cbn [fst].
    do 2 (constructor; [reflexivity|]).
    apply Forall_app. split; [|by repeat constructor].
    apply Forall_forall. intros e He. apply list_elem_of_fmap in He as (l & -> & _).
    reflexivity.
Qed.

Lemma pipeline_removes_tempdir x repoURI commit command fs :
  (os_MkdirTemp x "" temp_pattern).1 ∉ fs ->
  dirs_after (pipeline x repoURI commit command) fs = fs.
Proof.
  intros Hd. rewrite pipeline_unfold.
  pose proof (cloneAndCheckout_cases x repoURI commit) as Hc.
  destruct (cloneAndCheckout x repoURI commit) as [t [dir err]].
  cbn [fst snd] in *.
  inversion Hc as [d e Hmk|d e Hmk|d e Hmk|d e Hmk|d Hmk]; subst;
    rewrite Hmk in Hd; cbn [fst] in Hd; cbn -[executeCommand filter].
  - reflexivity.
  - by apply filter_ne_head.
  - by apply filter_ne_head.
  - by apply filter_ne_head.
  - rewrite dirs_after_inert by apply executeCommand_inert.
    cbn -[filter]. by apply filter_ne_head.
Qed.

(** C7: when the clone or the checkout fails the pipeline logs the reason,
    removes the temporary directory, sets the job to failure and stops: the
    clone is attempted once and no process is launched.  Whatever path the
    pipeline takes, no temporary directory of its own is left when it has
    finished. *)
Theorem acquisition_failure_and_cleanup x repoURI commit command :
  (forall fs,
     (os_MkdirTemp x "" temp_pattern).1 ∉ fs ->
     dirs_after (pipeline x repoURI commit command) fs = fs)
  ∧ (forall d e reason,
       os_MkdirTemp x "" temp_pattern = (d, None) ->
       (git_Clone x repoURI d = Some e
        ∧ reason = "Failed to clone repository: " +:+ e)
       ∨ (git_Clone x repoURI d = None ∧ git_Open x d = None
          ∧ git_Checkout x d commit = Some e
          ∧ reason = "Failed to checkout commit: " +:+ e) ->
       exists pre,
         pipeline x repoURI commit command =
           pre ++ [AppendLog reason; RemoveAll d; SetStatus JobStatusFailure]
         ∧ status_writes pre = [JobStatusRunning]
         ∧ List.filter is_exec pre = []
         ∧ length (List.filter is_clone pre) = 1%nat
         ∧ (length (List.filter is_checkout pre) <= 1)%nat
         ∧ List.filter touches_fs pre = [MkdirTemp (d, None)]).
Proof.
  split.
  { intros fs. apply pipeline_removes_tempdir. }
  intros d e reason Hmk [[Hcl ->]|(Hcl & Hop & Hco & ->)];
    rewrite pipeline_unfold.
  - rewrite (cloneAndCheckout_clone_failed x repoURI commit d e Hmk Hcl).
    cbn [fst snd].
    exists [SetStatus JobStatusRunning; AppendLog "Starting job execution";
            MkdirTemp (d, None);
            AppendLog ("Cloning repository: " +:+ repoURI);
            Clone repoURI d (Some e)].
    repeat split; cbn; try reflexivity; lia.
  - rewrite (cloneAndCheckout_checkout_failed x repoURI commit d e Hmk Hcl Hop Hco).
    cbn [fst snd].
    exists [SetStatus JobStatusRunning; AppendLog "Starting job execution";
            MkdirTemp (d, None);
            AppendLog ("Cloning repository: " +:+ repoURI);
            Clone repoURI d None; Open d None;
            AppendLog ("Checking out commit: " +:+ commit);
            Checkout d commit (Some e)].
    repeat split; cbn; try reflexivity; lia.
Qed.

Lemma acquisition_failure_and_cleanup_witness :
  dirs_after (pipeline ext_no_clone "/gone" "HEAD" "echo hello") [] = []
  ∧ exists pre,
      pipeline ext_no_clone "/gone" "HEAD" "echo hello" =
        pre ++ [AppendLog "Failed to clone repository: repository not found";
                RemoveAll "/tmp/ocuroot-ci-job-1";
                SetStatus JobStatusFailure]
      ∧ status_writes pre = [JobStatusRunning]
      ∧ List.filter is_exec pre = []
      ∧ length (List.filter is_clone pre) = 1%nat
      ∧ (length (List.filter is_checkout pre) <= 1)%nat
      ∧ List.filter touches_fs pre
        = [MkdirTemp ("/tmp/ocuroot-ci-job-1", None)].
Proof.
  destruct (acquisition_failure_and_cleanup ext_no_clone "/gone" "HEAD"
              "echo hello") as [Hfs Hfail].
  split.
  - apply Hfs. apply not_elem_of_nil.
  - apply (Hfail "/tmp/ocuroot-ci-job-1" "repository not found"
             "Failed to clone repository: repository not found" eq_refl).
    left. split; reflexivity.
Defined.

(** ** Empty and blank commands *)

Lemma fields_of_Some_ne rs : forall f, strings.fields_of (Some f) rs ≠ [].
Proof.
  induction rs as [|[c bytes] rs IH]; intros f; cbn; [done|].
  destruct (strings.IsSpace c); [done | apply IH].
Qed.

Lemma fields_of_None_nil rs :
  strings.fields_of None rs = []
  <-> forallb (fun r => strings.IsSpace r.1) rs = true.
Proof.
  induction rs as [|[c bytes] rs IH]; cbn; [done|].
  destruct (strings.IsSpace c); cbn; [exact IH|].
  split; [|done]. intros H. by apply fields_of_Some_ne in H.
Qed.

Lemma Fields_nil_blank command :
  strings.Fields command = [] <-> blank command = true.
Proof. apply fields_of_None_nil. Qed.

Lemma ascii_spaces_blank s :
  forallb asciiSpace (list_ascii_of_string s) = true -> blank s = true.
Proof.
  induction s as [|c s IH]; [done|].
  cbn [list_ascii_of_string forallb]. intros [Hc Hs]%andb_true_iff.
  unfold blank, strings.runes. cbn [strings.runes_from].
  assert (Hlt : (strings.byte_val c <? 128) = true).
  { unfold asciiSpace in Hc. apply Z.ltb_lt.
    apply orb_true_iff in Hc as [[_ H]%andb_true_iff|H]; lia. }
  unfold strings.DecodeRuneInString. rewrite Hlt.
  cbn [forallb fst Nat.pred]. unfold strings.IsSpace.
  unfold asciiSpace in Hc. rewrite Hc. cbn [orb andb]. by apply IH.
Qed.

Lemma status_writes_blank_run x repoURI commit command :
  strings.Fields command = [] ->
  status_writes (pipeline x repoURI commit command)
  = JobStatusRunning
    :: status_writes (cloneAndCheckout x repoURI commit).1
    ++ [JobStatusFailure]
  ∧ List.filter is_external (pipeline x repoURI commit command)
    = List.filter is_external (cloneAndCheckout x repoURI commit).1
      ++ match (cloneAndCheckout x repoURI commit).2 with
         | (_, Some _) => []
         | (tempDir, None) => [RemoveAll tempDir]
         end.
Proof.
  intros HF. rewrite pipeline_unfold.
  destruct (cloneAndCheckout x repoURI commit) as [t [tempDir [e|]]];
    cbn [fst snd].
  - cbn. rewrite status_writes_app, List.filter_app. cbn.
    by rewrite ?app_nil_r.
  - rewrite (executeCommand_blank x command tempDir HF). cbn.
    rewrite status_writes_app, List.filter_app. done.
Qed.

(** C4 as specified fails: with an empty command the pipeline
    creates the directory, clones, opens and checks out before it logs the
    empty command; and when the clone fails it never logs it. *)
Lemma empty_command_clones_first :
  List.filter is_external
    <$> before_rejection (pipeline ext_ok "/repo" "HEAD" "")
  = Some [MkdirTemp ("/tmp/ocuroot-ci-job-1", None);
          Clone "/repo" "/tmp/ocuroot-ci-job-1" None;
          Open "/tmp/ocuroot-ci-job-1" None;
          Checkout "/tmp/ocuroot-ci-job-1" "HEAD" None]
  ∧ before_rejection (pipeline ext_no_clone "/gone" "HEAD" "") = None.
Proof. split; vm_compute; reflexivity. Qed.

(** C4, amended: with an empty command the pipeline still sets the job
    running and acquires the working directory; once clone and checkout
    have succeeded the empty command is rejected before any process is
    launched, "Error: empty command" is logged, the job becomes a failure
    and the directory is removed. *)
Theorem empty_command_rejected_before_launch x id repoURI commit d :
  os_MkdirTemp x "" temp_pattern = (d, None) ->
  git_Clone x repoURI d = None ->
  git_Open x d = None ->
  git_Checkout x d commit = None ->
  pipeline x repoURI commit "" =
    [SetStatus JobStatusRunning;
     AppendLog "Starting job execution";
     MkdirTemp (d, None);
     AppendLog ("Cloning repository: " +:+ repoURI);
     Clone repoURI d None;
     Open d None;
     AppendLog ("Checking out commit: " +:+ commit);
     Checkout d commit None;
     AppendLog ("Repository ready at " +:+ d);
     AppendLog "Repository ready for job execution";
     AppendLog "Executing command: ";
     AppendLog "Error: empty command";
     SetStatus JobStatusFailure;
     RemoveAll d]
  ∧ Status (job_after x id repoURI commit "") = JobStatusFailure
  ∧ last (Logs (job_after x id repoURI commit "")) = Some "Error: empty command".
Proof.
  intros Hmk Hcl Hop Hco.
  assert (Hp : pipeline x repoURI commit "" =
    [SetStatus JobStatusRunning; AppendLog "Starting job execution";
     MkdirTemp (d, None); AppendLog ("Cloning repository: " +:+ repoURI);
     Clone repoURI d None; Open d None;
     AppendLog ("Checking out commit: " +:+ commit); Checkout d commit None;
     AppendLog ("Repository ready at " +:+ d);
     AppendLog "Repository ready for job execution";
     AppendLog "Executing command: "; AppendLog "Error: empty command";
     SetStatus JobStatusFailure; RemoveAll d]).
  { rewrite pipeline_unfold.
    rewrite (cloneAndCheckout_ready x repoURI commit d Hmk Hcl Hop Hco).
    cbn [fst snd]. rewrite (executeCommand_blank x "" d eq_refl). reflexivity. }
  split; [exact Hp|].
  unfold job_after. rewrite apply_effs_spec, Hp. split; reflexivity.
Qed.

Lemma empty_command_rejected_before_launch_witness :
  List.filter is_exec (pipeline ext_ok "/repo" "HEAD" "") = []
  ∧ Status (job_after ext_ok "01J" "/repo" "HEAD" "") = JobStatusFailure
  ∧ last (Logs (job_after ext_ok "01J" "/repo" "HEAD" ""))
    = Some "Error: empty command".
Proof.
  destruct (empty_command_rejected_before_launch ext_ok "01J" "/repo" "HEAD"
              "/tmp/ocuroot-ci-job-1" eq_refl eq_refl eq_refl eq_refl)
    as (Hp & HS & HL).
  split; [rewrite Hp; reflexivity | split; [exact HS | exact HL]].
Defined.

(** C10: the command is cut into fields at white space; the first field
    is the program and the others its arguments, handed as they are to the
    one process that is launched (no shell in between).  A command has no
    field exactly when it is blank, as is every command made of ASCII white
    space only, and a blank command goes the way of the empty one: same result of [executeCommand], the same log entry, the same
    status writes and the same calls outside, and no process. *)
Theorem command_tokenized x command dir :
  (forall name args,
     strings.Fields command = name :: args ->
     List.filter is_exec (executeCommand x command dir).1
     = [Exec name args dir (cmd_CombinedOutput x name args dir)])
  ∧ (strings.Fields command = [] <-> blank command = true)
  ∧ (forallb asciiSpace (list_ascii_of_string command) = true ->
     blank command = true)
  ∧ (blank command = true ->
     executeCommand x command dir =
       ([AppendLog ("Executing command: " +:+ command);
         AppendLog "Error: empty command"], Some "empty command")
     ∧ (executeCommand x command dir).2 = (executeCommand x "" dir).2
     ∧ forall repoURI commit,
         status_writes (pipeline x repoURI commit command)
         = status_writes (pipeline x repoURI commit "")
         ∧ List.filter is_external (pipeline x repoURI commit command)
           = List.filter is_external (pipeline x repoURI commit "")
         ∧ List.filter is_exec (pipeline x repoURI commit command) = []).
Proof.
  split; [|split; [apply Fields_nil_blank|split; [apply ascii_spaces_blank|]]].
  - intros name args HF.
    rewrite (executeCommand_launch x command dir name args HF). cbn [fst].
    cbn. rewrite List.filter_app, is_exec_prefixed. reflexivity.
  - intros Hb. apply Fields_nil_blank in Hb.
    split; [by apply executeCommand_blank|]. split.
    { rewrite executeCommand_blank by done.
      by rewrite (executeCommand_blank x "" dir eq_refl). }
    intros repoURI commit.
    destruct (status_writes_blank_run x repoURI commit command Hb) as [Hs He].
    destruct (status_writes_blank_run x repoURI commit "" eq_refl) as [Hs0 He0].
    split; [congruence|]. split; [congruence|].
    assert (Hsub : forall e, e ∈ List.filter is_exec (pipeline x repoURI commit command)
                        -> e ∈ List.filter is_external (pipeline x repoURI commit command)).
    { intros e. rewrite !list_elem_of_In, !List.filter_In.
      intros [Hin Hex]. split; [done|]. by destruct e. }
    rewrite He in Hsub.
    destruct (List.filter is_exec (pipeline x repoURI commit command))
      as [|e l] eqn:E; [done|exfalso].
    assert (He' : is_exec e = true).
    { assert (Hin : In e (List.filter is_exec (pipeline x repoURI commit command)))
        by (rewrite E; by left).
      by apply List.filter_In in Hin as [_ ?]. }
    specialize (Hsub e (list_elem_of_here _ _)).
    apply elem_of_app in Hsub as [Hin|Hin].
    + apply list_elem_of_In, List.filter_In in Hin as [Hin _].
      pose proof (cloneAndCheckout_cases x repoURI commit) as Hc.
      destruct (cloneAndCheckout x repoURI commit) as [t r]. cbn [fst snd] in *.
      inversion Hc; subst; cbn in Hin; intuition (subst; discriminate).
    + destruct (cloneAndCheckout x repoURI commit).2 as [tempDir [err|]].
      * by apply elem_of_nil in Hin.
      * apply list_elem_of_singleton in Hin. subst. discriminate.
Qed.

Lemma command_tokenized_witness :
  List.filter is_exec (executeCommand ext_ok "echo hello" "/w").1
  = [Exec "echo" ["hello"] "/w"
       ("hello" +:+ String strings.newline "", None)]
  ∧ executeCommand ext_ok "   " "/w" =
      ([AppendLog "Executing command:    ";
        AppendLog "Error: empty command"], Some "empty command").
Proof.
  split.
  - destruct (command_tokenized ext_ok "echo hello" "/w") as (H & _ & _).
    exact (H "echo" ["hello"] eq_refl).
  - destruct (command_tokenized ext_ok "   " "/w") as (_ & _ & Hb & H).
    exact (proj1 (H (Hb eq_refl))).
Defined.

(** ** The store *)

Lemma ScheduleJob_spec id x repoURI commit command s :
  ScheduleJob id x repoURI commit command s =
    Some (id,
          mkCIServer (<[id := length (heap s)]> (jobs s))
            (heap s ++ [mkJob id JobStatusPending repoURI commit command []])
            (goroutines s
               ++ [mkGo (length (heap s)) (pipeline x repoURI commit command)]),
          [Lock; Deref (length (heap s)); MapStore id; Unlock;
           GoStmt (length (heap s)); Deref (length (heap s))]).
Proof.
  unfold ScheduleJob, saveJob, defer_op, alloc, deref, mapStore, spawn, act.
  unfold mbind, Op_bind, mret, Op_ret. cbn.
  rewrite !list_lookup_middle by done. cbn.
  rewrite !list_lookup_middle by done. reflexivity.
Qed.

Lemma derefs_state ps s js s' tr :
  derefs ps s = Some (js, s', tr) -> s' = s.
Proof.
  revert js s' tr. induction ps as [|p ps IH]; intros js s' tr; cbn.
  { unfold mret, Op_ret. by intros [= _ <- _]. }
  unfold mbind, Op_bind, deref.
  destruct (heap s !! p); [|done].
  destruct (derefs ps s) as [[[js1 s1] t1]|] eqn:E; [|done].
  cbn. intros [= _ <- _]. by eapply IH.
Qed.

Lemma ListJobs_spec s :
  ListJobs s = Some ((map_to_list (jobs s)).*1, s, [RLock; MapRange; RUnlock]).
Proof. reflexivity. Qed.

Lemma AllJobDetail_state s js s' tr :
  AllJobDetail s = Some (js, s', tr) -> s' = s.
Proof.
  unfold AllJobDetail, defer_op, act, mapRange, mbind, Op_bind, mret, Op_ret.
  destruct (derefs _ s) as [[[js1 s1] t1]|] eqn:E; [|done].
  apply derefs_state in E. subst. by intros [= _ <- _].
Qed.

Lemma JobDetail_state jobID s j s' tr :
  JobDetail jobID s = Some (j, s', tr) -> s' = s.
Proof.
  unfold JobDetail, defer_op, act, mapLoad, deref, mbind, Op_bind, mret, Op_ret.
  destruct (jobs s !! jobID) as [p|]; [|by intros [= _ <- _]].
  destruct (heap s !! p); [|done]. by intros [= _ <- _].
Qed.

Lemma JobLogs_state jobID s l s' tr :
  JobLogs jobID s = Some (l, s', tr) -> s' = s.
Proof.
  unfold JobLogs, mapLoad, deref, mbind, Op_bind, mret, Op_ret.
  destruct (jobs s !! jobID) as [p|]; [|by intros [= _ <- _]].
  destruct (heap s !! p); [|done]. by intros [= _ <- _].
Qed.

Lemma state_after_read {A} (m : Op A) s :
  (forall a s' tr, m s = Some (a, s', tr) -> s' = s) -> state_after m s = s.
Proof.
  intros H. unfold state_after.
  destruct (m s) as [[[a s'] tr]|] eqn:E; [by eapply H | done].
Qed.

Lemma exec_read a s :
  match a with DoSchedule _ _ _ _ _ | DoStep _ => False | _ => True end ->
  exec s a = s.
Proof.
  destruct a; intros H; try elim H; cbn [exec].
  - apply (state_after_read ListJobs). intros ? ? ?.
    rewrite ListJobs_spec. by intros [= _ <- _].
  - apply (state_after_read AllJobDetail), AllJobDetail_state.
  - apply (state_after_read (JobDetail jobID)), JobDetail_state.
  - apply (state_after_read (JobLogs jobID)), JobLogs_state.
Qed.

Lemma exec_schedule id x repoURI commit command s :
  exec s (DoSchedule id x repoURI commit command) =
    mkCIServer (<[id := length (heap s)]> (jobs s))
      (heap s ++ [mkJob id JobStatusPending repoURI commit command []])
      (goroutines s
         ++ [mkGo (length (heap s)) (pipeline x repoURI commit command)]).
Proof. cbn. unfold state_after. by rewrite ScheduleJob_spec. Qed.

Lemma jobs_step g s : jobs (step_goroutine g s) = jobs s.
Proof.
  unfold step_goroutine.
  destruct (goroutines s !! g) as [[p [|e es]]|]; reflexivity.
Qed.

(** C3: for an identifier that is not in the map, [JobDetail] returns the
    record made of that identifier, status failure and nothing else, and
    [JobLogs] returns no line; neither panics and both leave the store as
    it was. *)
Theorem unknown_id_lookups s jobID :
  jobs s !! jobID = None ->
  (exists tr,
     JobDetail jobID s
     = Some (mkJob jobID JobStatusFailure "" "" "" [], s, tr))
  ∧ (exists tr, JobLogs jobID s = Some ([], s, tr))
  ∧ exec s (DoJobDetail jobID) = s
  ∧ exec s (DoJobLogs jobID) = s.
Proof.
  intros Hnone. repeat split.
  - exists [RLock; MapLoad jobID; RUnlock].
    unfold JobDetail, defer_op, act, mapLoad, mbind, Op_bind, mret, Op_ret.
    by rewrite Hnone.
  - exists [MapLoad jobID].
    unfold JobLogs, mapLoad, mbind, Op_bind, mret, Op_ret. by rewrite Hnone.
  - by apply exec_read.
  - by apply exec_read.
Qed.

Lemma unknown_id_lookups_witness :
  (exists tr,
     JobDetail "non-existent-job" one_job_done
     = Some (mkJob "non-existent-job" JobStatusFailure "" "" "" [],
             one_job_done, tr))
  ∧ (exists tr, JobLogs "non-existent-job" one_job_done
                = Some ([], one_job_done, tr)).
Proof.
  destruct (unknown_id_lookups one_job_done "non-existent-job") as (H1 & H2 & _).
  - vm_compute. reflexivity.
  - split; [exact H1 | exact H2].
Defined.

Lemma list_jobs_elem s id : id ∈ list_jobs s <-> is_Some (jobs s !! id).
Proof.
  unfold list_jobs. rewrite ListJobs_spec. rewrite list_elem_of_fmap. split.
  - intros [[k p] [-> Hin]]. apply elem_of_map_to_list in Hin. by eexists.
  - intros [p Hp]. exists (id, p). split; [done|]. by apply elem_of_map_to_list.
Qed.

Lemma list_jobs_NoDup s : NoDup (list_jobs s).
Proof. unfold list_jobs. rewrite ListJobs_spec. apply NoDup_fst_map_to_list. Qed.

Lemma jobs_exec s a id :
  jobs (exec s a) !! id =
    match a with
    | DoSchedule id' _ _ _ _ =>
        if decide (id' = id) then Some (length (heap s)) else jobs s !! id
    | _ => jobs s !! id
    end.
Proof.
  destruct a as [id' x r c cmd|g| | | |];
    try (rewrite exec_read by done; reflexivity).
  - rewrite exec_schedule. cbn. apply lookup_insert.
  - cbn. by rewrite jobs_step.
Qed.

Lemma jobs_run acts : forall s id,
  is_Some (jobs (run s acts) !! id)
  <-> is_Some (jobs s !! id) ∨ id ∈ scheduled_ids acts.
Proof.
  induction acts as [|a acts IH]; intros s id; cbn.
  { rewrite elem_of_nil. tauto. }
  change (fold_left exec acts (exec s a)) with (run (exec s a) acts).
  rewrite IH, jobs_exec.
  destruct a as [id' x r c cmd|g| | | |]; cbn; try tauto.
  rewrite elem_of_cons. case_decide; subst.
  - split; [auto | intros _; left; by eexists].
  - split; [tauto | intros [?|[?|?]]; [tauto | congruence | tauto]].
Qed.

Lemma run_app s acts more : run s (acts ++ more) = run (run s acts) more.
Proof. apply fold_left_app. Qed.

Lemma heap_step_ID g s p j :
  heap s !! p = Some j ->
  exists j', heap (step_goroutine g s) !! p = Some j' ∧ ID j' = ID j.
Proof.
  intros Hp. unfold step_goroutine.
  destruct (goroutines s !! g) as [[q [|e es]]|]; try by eexists.
  cbn. destruct (decide (q = p)) as [->|Hne].
  - rewrite list_lookup_alter_eq, Hp. eexists. split; [done|]. by destruct e.
  - rewrite list_lookup_alter_ne by done. by eexists.
Qed.

Lemma bound_exec s a : bound s -> bound (exec s a).
Proof.
  intros Hb id p. rewrite jobs_exec.
  destruct a as [id' x r c cmd|g| | | |];
    try (rewrite exec_read by done; apply Hb).
  - rewrite exec_schedule. cbn. case_decide; subst.
    + intros [= <-]. eexists. split; [by apply list_lookup_middle|done].
    + intros Hp. destruct (Hb _ _ Hp) as (j & Hj & Hid).
      exists j. split; [by apply lookup_app_l_Some|done].
  - intros Hp. destruct (Hb _ _ Hp) as (j & Hj & Hid).
    destruct (heap_step_ID g s p j Hj) as (j' & Hj' & Hid').
    exists j'. split; [done|congruence].
Qed.

Lemma bound_run acts : forall s, bound s -> bound (run s acts).
Proof.
  induction acts as [|a acts IH]; intros s Hb; [done|].
  apply IH. by apply bound_exec.
Qed.

Lemma bound_new : bound NewCIServer.
Proof. intros id p. cbn. by rewrite lookup_empty. Qed.

Lemma jobs_run_fixed more : forall s id p,
  id ∉ scheduled_ids more ->
  jobs s !! id = Some p -> jobs (run s more) !! id = Some p.
Proof.
  induction more as [|a more IH]; intros s id p Hnot Hp; [done|].
  cbn. apply IH.
  - destruct a; cbn in Hnot; try done. by apply not_elem_of_cons in Hnot as [_ ?].
  - rewrite jobs_exec. destruct a; try done.
    case_decide; [|done]. subst. cbn in Hnot. by apply not_elem_of_cons in Hnot as [? _].
Qed.

Lemma scheduled_ids_app a b :
  scheduled_ids (a ++ b) = scheduled_ids a ++ scheduled_ids b.
Proof. apply omap_app. Qed.

(** C8: after any execution, [ListJobs] returns the identifiers that the
    [ScheduleJob] calls returned, each once, none missing and no other.
    An identifier that is listed stays listed whatever happens next, and as
    long as [NewJobID] never repeats itself it keeps pointing at the record
    it was inserted with, which keeps carrying it. *)
Theorem list_is_what_was_submitted acts :
  NoDup (list_jobs (run NewCIServer acts))
  ∧ (forall id, id ∈ list_jobs (run NewCIServer acts) <-> id ∈ scheduled_ids acts)
  ∧ list_jobs (run NewCIServer acts) ≡ₚ remove_dups (scheduled_ids acts)
  ∧ (forall more id,
       id ∈ list_jobs (run NewCIServer acts) ->
       id ∈ list_jobs (run NewCIServer (acts ++ more)))
  ∧ (forall more id p,
       NoDup (scheduled_ids (acts ++ more)) ->
       jobs (run NewCIServer acts) !! id = Some p ->
       jobs (run NewCIServer (acts ++ more)) !! id = Some p
       ∧ ID <$> heap (run NewCIServer (acts ++ more)) !! p = Some id).
Proof.
  assert (Hmem : forall a id,
            id ∈ list_jobs (run NewCIServer a) <-> id ∈ scheduled_ids a).
  { intros a id. rewrite list_jobs_elem, jobs_run. cbn.
    rewrite lookup_empty. split; [intros [[? [=]]|?]; done | by right]. }
  split; [apply list_jobs_NoDup|]. split; [apply Hmem|]. split.
  { apply NoDup_Permutation.
    - apply list_jobs_NoDup.
    - apply NoDup_remove_dups.
    - intros id. by rewrite Hmem, elem_of_remove_dups. }
  split.
  { intros more id. rewrite !Hmem, scheduled_ids_app, elem_of_app. by left. }
  intros more id p Hnd Hp.
  assert (Hin : id ∈ scheduled_ids acts).
  { apply Hmem, list_jobs_elem. by eexists. }
  rewrite scheduled_ids_app in Hnd. apply NoDup_app in Hnd as (_ & Hdisj & _).
  assert (Hp' : jobs (run NewCIServer (acts ++ more)) !! id = Some p).
  { rewrite run_app. apply jobs_run_fixed; [by apply Hdisj | done]. }
  split; [done|].
  destruct (bound_run (acts ++ more) NewCIServer bound_new id p Hp')
    as (j & -> & <-).
  reflexivity.
Qed.

Lemma list_is_what_was_submitted_witness :
  jobs (run NewCIServer (two_jobs ++ [DoStep 0; DoStep 1])) !! "01J" = Some 0%nat
  ∧ ID <$> heap (run NewCIServer (two_jobs ++ [DoStep 0; DoStep 1])) !! 0%nat
    = Some "01J"
  ∧ "01K" ∈ list_jobs (run NewCIServer (two_jobs ++ [DoStep 0; DoStep 1])).
Proof.
  destruct (list_is_what_was_submitted two_jobs) as (_ & _ & _ & Hkeep & Hfix).
  destruct (Hfix [DoStep 0; DoStep 1] "01J" 0%nat) as [H1 H2].
  - vm_compute. apply NoDup_cons. split; [|apply NoDup_singleton].
    intros H. apply list_elem_of_singleton in H. discriminate.
  - vm_compute. reflexivity.
  - split; [exact H1|]. split; [exact H2|].
    apply Hkeep. vm_compute. apply list_elem_of_here.
Defined.

(** ** The lifecycle of a job *)

Lemma status_writes_acquire x repoURI commit :
  status_writes (cloneAndCheckout x repoURI commit).1 = [].
Proof.
  pose proof (cloneAndCheckout_cases x repoURI commit) as Hc.
  destruct (cloneAndCheckout x repoURI commit) as [t r]. cbn [fst snd] in *.
  by inversion Hc.
Qed.

Lemma status_writes_execute x command dir :
  status_writes (executeCommand x command dir).1 = [].
Proof.
  destruct (strings.Fields command) as [|name args] eqn:HF.
  - by rewrite executeCommand_blank.
  - rewrite (executeCommand_launch x command dir name args HF). cbn [fst].
    change (status_writes (?a :: ?b :: ?l)) with (status_writes l).
    by rewrite status_writes_app, status_writes_prefixed.
Qed.

Lemma pipeline_status_writes x repoURI commit command :
  exists t, terminal t = true
    ∧ status_writes (pipeline x repoURI commit command) = [JobStatusRunning; t].
Proof.
  rewrite pipeline_unfold.
  change (status_writes (SetStatus ?s :: AppendLog ?l :: ?r))
    with (s :: status_writes r).
  rewrite status_writes_app, status_writes_acquire.
  destruct (cloneAndCheckout x repoURI commit).2 as [tempDir [e|]].
  - by exists JobStatusFailure.
  - change (status_writes (AppendLog ?l :: ?r)) with (status_writes r).
    rewrite status_writes_app, status_writes_execute.
    destruct (executeCommand x command tempDir).2;
      [by exists JobStatusFailure | by exists JobStatusSuccess].
Qed.

Lemma phase_write st w ws :
  phase st (w :: ws) -> lifecycle st w ∧ phase w ws.
Proof.
  intros [(-> & t & Ht & [= -> ->])|[(-> & t & Ht & [= -> ->])|[_ [=]]]].
  - split; [constructor|]. right; left. eauto.
  - split; [by destruct t; try constructor|]. right; right. done.
Qed.

Lemma aligned_new : aligned NewCIServer.
Proof. split; [done|]. intros g go. cbn. by rewrite lookup_nil. Qed.

(** One action: the invariant is kept, every record that exists moves by at
    most one step of the lifecycle, and a record that appears is pending. *)
Lemma exec_lifecycle s a :
  aligned s ->
  aligned (exec s a)
  ∧ (forall p j, heap s !! p = Some j ->
       exists j', heap (exec s a) !! p = Some j'
                  ∧ lifecycle (Status j) (Status j')
                  ∧ (is_step a = false -> j' = j))
  ∧ (forall p j', heap s !! p = None -> heap (exec s a) !! p = Some j' ->
       Status j' = JobStatusPending ∧ Logs j' = []).
Proof.
  intros [Hlen Hgo].
  destruct a as [id x r c cmd|g| | | |];
    try (rewrite exec_read by done; split; [done|]; split;
         [intros p j Hp; exists j; repeat split; [done|constructor]
         |intros p j' Hn Hs; congruence]).
  - (* ScheduleJob *)
    rewrite exec_schedule. unfold aligned. cbn [goroutines heap jobs].
    split; [split|split].
    + rewrite !length_app. cbn. lia.
    + intros g go Hg. cbn in Hg. apply lookup_app_Some in Hg as [Hg|[Hge Hg]].
      * destruct (Hgo g go Hg) as (Ht & j & Hj & Hph).
        split; [done|]. exists j. split; [by apply lookup_app_l_Some|done].
      * cbn. destruct (g - length (goroutines s))%nat as [|n] eqn:E; [|done].
        cbn in Hg. injection Hg as <-. cbn.
        assert (g = length (heap s)) as -> by lia.
        split; [done|]. eexists. split; [by apply list_lookup_middle|].
        left. split; [done|]. apply pipeline_status_writes.
    + intros p j Hp. exists j.
      split; [by apply lookup_app_l_Some|]. split; [constructor|done].
    + intros p j' Hn Hs. apply lookup_ge_None in Hn.
      rewrite lookup_app_r in Hs by done.
      destruct (p - length (heap s))%nat; [|done].
      cbn in Hs. by injection Hs as <-.
  - (* a step of goroutine [g] *)
    cbn. unfold step_goroutine.
    destruct (goroutines s !! g) as [[q [|e es]]|] eqn:Eg;
      try (split; [by split|]; split;
           [intros p j Hp; exists j; repeat split; [done|constructor]
           |intros p j' Hn Hs; congruence]).
    destruct (Hgo g _ Eg) as (Hq & j0 & Hj0 & Hph). cbn in Hq, Hph. subst q.
    assert (Hstep : lifecycle (Status j0) (Status (apply_eff j0 e))
                    ∧ phase (Status (apply_eff j0 e)) (status_writes es)).
    { destruct e; cbn; try (split; [constructor|exact Hph]).
      by apply phase_write. }
    destruct Hstep as [Hlc Hph'].
    unfold aligned. cbn [goroutines heap jobs]. split; [split|split].
    + by rewrite length_insert, length_alter.
    + intros g' go Hg'. destruct (decide (g = g')) as [<-|Hne].
      * rewrite list_lookup_insert_eq in Hg' by (by eapply lookup_lt_Some).
        injection Hg' as <-. cbn. split; [done|].
        exists (apply_eff j0 e). by rewrite list_lookup_alter_eq, Hj0.
      * rewrite list_lookup_insert_ne in Hg' by done.
        rewrite list_lookup_alter_ne by done. by apply Hgo.
    + intros p j Hp. destruct (decide (g = p)) as [<-|Hne].
      * rewrite list_lookup_alter_eq, Hj0. cbn. eexists. split; [done|].
        split; [congruence|done].
      * rewrite list_lookup_alter_ne by done. exists j.
        split; [done|]. split; [constructor|done].
    + intros p j' Hn Hs. exfalso. apply lookup_ge_None in Hn.
      apply lookup_lt_Some in Hs. rewrite length_alter in Hs. lia.
Qed.

Lemma status_history_cons p s sts :
  status_history p (s :: sts) =
    match heap s !! p with
    | Some j => Status j :: status_history p sts
    | None => status_history p sts
    end.
Proof. unfold status_history. cbn. by destruct (heap s !! p). Qed.

Lemma history_chain acts : forall s p,
  aligned s ->
  match heap s !! p with
  | Some j => chain (Status j :: status_history p (states s acts))
  | None =>
      chain (JobStatusPending :: status_history p (states s acts))
      ∧ (status_history p (states s acts) = []
         ∨ head (status_history p (states s acts)) = Some JobStatusPending)
  end.
Proof.
  induction acts as [|a acts IH]; intros s p Hal.
  { cbn. destruct (heap s !! p); [done|]. split; [done|by left]. }
  destruct (exec_lifecycle s a Hal) as (Hal' & Hold & Hnew).
  specialize (IH (exec s a) p Hal').
  cbn [states]. rewrite status_history_cons.
  destruct (heap s !! p) as [j|] eqn:Hp.
  - destruct (Hold p j Hp) as (j' & Hp' & Hlc & _).
    rewrite Hp' in *. cbn. done.
  - destruct (heap (exec s a) !! p) as [j'|] eqn:Hp'; cbn.
    + destruct (Hnew p j' Hp Hp') as [Hst _]. rewrite Hst in *.
      split; [split; [constructor|done]|by right].
    + done.
Qed.

Lemma lifecycle_terminal st st' :
  terminal st = true -> lifecycle st st' -> st' = st.
Proof. intros Ht H. by inversion H; subst. Qed.

(** C1: a record is inserted pending with no log line; only the steps of
    its goroutine change it; along any execution the statuses of a record
    start at pending and each is followed by itself or by its successor in
    pending, running, success or failure: nothing goes back, running is not
    skipped, and success and failure are final.  What [JobDetail] shows for
    an identifier is the record the map points at. *)
Theorem job_status_lifecycle acts p :
  (status_history p (states NewCIServer acts) = []
   ∨ head (status_history p (states NewCIServer acts)) = Some JobStatusPending)
  ∧ chain (status_history p (states NewCIServer acts))
  ∧ (forall s id x repoURI commit command,
       jobs (exec s (DoSchedule id x repoURI commit command)) !! id
       = Some (length (heap s))
       ∧ heap (exec s (DoSchedule id x repoURI commit command)) !! length (heap s)
         = Some (mkJob id JobStatusPending repoURI commit command []))
  ∧ (forall a q j,
       is_step a = false ->
       heap (run NewCIServer acts) !! q = Some j ->
       heap (exec (run NewCIServer acts) a) !! q = Some j)
  ∧ (forall id q,
       jobs (run NewCIServer acts) !! id = Some q ->
       exists j tr,
         JobDetail id (run NewCIServer acts)
         = Some (j, run NewCIServer acts, tr)
         ∧ heap (run NewCIServer acts) !! q = Some j)
  ∧ (forall st st',
       lifecycle st st' ->
       (terminal st = true -> st' = st)
       ∧ (st = JobStatusPending -> terminal st' = false)
       ∧ (st = JobStatusRunning -> st' ≠ JobStatusPending)).
Proof.
  pose proof (history_chain acts NewCIServer p aligned_new) as H.
  cbn in H. rewrite lookup_nil in H. destruct H as [Hch Hhd].
  split; [exact Hhd|]. split.
  { destruct (status_history p (states NewCIServer acts)) as [|st h]; [done|].
    destruct h; [done|]. apply Hch. }
  split.
  { intros s id x r c cmd. rewrite exec_schedule. cbn.
    split; [apply lookup_insert_eq | by apply list_lookup_middle]. }
  split.
  { intros a q j Ha Hq.
    assert (Hal : aligned (run NewCIServer acts)).
    { clear. generalize aligned_new. generalize NewCIServer.
      induction acts as [|a acts IH]; intros s Hs; [done|].
      cbn. apply IH. by apply exec_lifecycle. }
    destruct (exec_lifecycle _ a Hal) as (_ & Hold & _).
    destruct (Hold q j Hq) as (j' & Hq' & _ & Heq). by rewrite Hq', Heq. }
  split.
  { intros id q Hq.
    destruct (bound_run acts NewCIServer bound_new id q Hq) as (j & Hj & _).
    exists j, [RLock; MapLoad id; Deref q; RUnlock]. split; [|done].
    unfold JobDetail, defer_op, act, mapLoad, deref, mbind, Op_bind, mret, Op_ret.
    by rewrite Hq, Hj. }
  intros st st' Hlc. split; [intros Ht; by eapply lifecycle_terminal|].
  split; intros ->; by inversion Hlc.
Qed.

Lemma job_status_lifecycle_witness :
  heap (exec (run NewCIServer
                [DoSchedule "01J" ext_ok "/repo" "HEAD" "echo hello"; DoStep 0])
          (DoJobDetail "01J")) !! 0%nat
  = Some (mkJob "01J" JobStatusRunning "/repo" "HEAD" "echo hello" []).
Proof.
  destruct (job_status_lifecycle
              [DoSchedule "01J" ext_ok "/repo" "HEAD" "echo hello"; DoStep 0]
              0%nat) as (_ & _ & _ & Hread & _ & _).
  apply Hread; [reflexivity | vm_compute; reflexivity].
Defined.

Example history_echo :
  status_history 0 (states NewCIServer
    (DoSchedule "01J" ext_ok "/repo" "HEAD" "echo hello"
       :: replicate 18 (DoStep 0)))
  = JobStatusPending :: replicate 14 JobStatusRunning
      ++ replicate 4 JobStatusSuccess.
Proof. vm_compute. reflexivity. Qed.

(** ** The lock discipline *)

Lemma derefs_trace ps s js s' tr :
  derefs ps s = Some (js, s', tr) -> disciplined Shared (tr ++ [RUnlock]) = true.
Proof.
  revert js s' tr. induction ps as [|p ps IH]; intros js s' tr; cbn.
  { unfold mret, Op_ret. by intros [= _ _ <-]. }
  unfold mbind, Op_bind, deref.
  destruct (heap s !! p); [|done].
  destruct (derefs ps s) as [[[js1 s1] t1]|] eqn:E; [|done].
  cbn. intros [= _ _ <-]. cbn. rewrite app_nil_r. by eapply IH.
Qed.

Lemma locking_methods_disciplined s :
  (forall id x repoURI commit command r s' tr,
     ScheduleJob id x repoURI commit command s = Some (r, s', tr) ->
     disciplined Free tr = true)
  ∧ (forall r s' tr, ListJobs s = Some (r, s', tr) -> disciplined Free tr = true)
  ∧ (forall r s' tr,
       AllJobDetail s = Some (r, s', tr) -> disciplined Free tr = true)
  ∧ (forall jobID r s' tr,
       JobDetail jobID s = Some (r, s', tr) -> disciplined Free tr = true).
Proof.
  repeat split.
  - intros id x r c cmd res s' tr. rewrite ScheduleJob_spec. by intros [= _ _ <-].
  - intros r s' tr. rewrite ListJobs_spec. by intros [= _ _ <-].
  - intros r s' tr.
    unfold AllJobDetail, defer_op, act, mapRange, mbind, Op_bind, mret, Op_ret.
    destruct (derefs _ s) as [[[js1 s1] t1]|] eqn:E; [|done].
    intros [= _ _ <-]. cbn. by apply derefs_trace in E.
  - intros jobID r s' tr.
    unfold JobDetail, defer_op, act, mapLoad, deref, mbind, Op_bind, mret, Op_ret.
    destruct (jobs s !! jobID) as [p|]; [|by intros [= _ _ <-]].
    destruct (heap s !! p); [|done]. by intros [= _ _ <-].
Qed.

Lemma JobLogs_undisciplined s jobID r s' tr :
  JobLogs jobID s = Some (r, s', tr) -> disciplined Free tr = false.
Proof.
  unfold JobLogs, mapLoad, deref, mbind, Op_bind, mret, Op_ret.
  destruct (jobs s !! jobID) as [p|]; [|by intros [= _ _ <-]].
  destruct (heap s !! p); [|done]. by intros [= _ _ <-].
Qed.

(** C5 does not hold of [JobLogs]: it looks the identifier up in the map
    and reads the record without taking the mutex, where [JobDetail] on the
    same store takes the read lock around the same lookup. *)
Theorem JobLogs_reads_map_without_lock :
  (exists logs,
     JobLogs "01J" one_job_done
     = Some (logs, one_job_done, [MapLoad "01J"; Deref 0]))
  ∧ disciplined Free [MapLoad "01J"; Deref 0] = false
  ∧ (exists j,
       JobDetail "01J" one_job_done
       = Some (j, one_job_done, [RLock; MapLoad "01J"; Deref 0; RUnlock]))
  ∧ disciplined Free [RLock; MapLoad "01J"; Deref 0; RUnlock] = true.
Proof.
  split; [eexists; vm_compute; reflexivity|].
  split; [reflexivity|].
  split; [eexists; vm_compute; reflexivity|reflexivity].
Qed.

(** ** The wait handler *)

Ltac unfold_mon :=
  cbv beta iota delta
    [mbind Mon_bind time_Since time_Now s_ci_ListJobs s_ci_AllJobDetail
     time_Sleep mret Mon_ret].

Ltac units := unfold Minute, Second, Millisecond, Nanosecond in *.

Lemma arrival_loop_total w start :
  (forall t, 0 <= latency w t) ->
  forall n fuel t,
    (n < fuel)%nat ->
    30 * Second - (t - start) <= Z.of_nat n * (100 * Millisecond) ->
    exists t' ev, arrival_loop w fuel start t = Some (tt, t', ev) ∧ t <= t'.
Proof.
  intros Hlat. induction n as [|n IH]; intros fuel t Hf Hb;
    (destruct fuel as [|f]; [lia|]); cbn [arrival_loop]; unfold_mon;
    pose proof (Hlat t) as Ht;
    (destruct (t - start <? 30 * Second) eqn:E;
     [|eexists _, _; split; [reflexivity|lia]]).
  - apply Z.ltb_lt in E. units. lia.
  - pose proof (Hlat (t + latency w t)) as Ht1.
    destruct (0 <? length (ci_ListJobs w (t + latency w t)))%nat.
    { eexists _, _. split; [reflexivity|lia]. }
    pose proof (Hlat (t + latency w t + latency w (t + latency w t))) as Ht2.
    destruct (IH f (t + latency w t + latency w (t + latency w t)
                    + 100 * Millisecond
                    + latency w (t + latency w t + latency w (t + latency w t))))
      as (t' & ev & Heq & Hle); [lia | units; lia |].
    rewrite Heq. eexists _, _. split; [reflexivity|]. units. lia.
Qed.

Lemma drain_loop_total w start :
  (forall t, 0 <= latency w t) ->
  forall n fuel t,
    (n < fuel)%nat ->
    5 * Minute + 1 - (t - start) <= Z.of_nat n * (100 * Millisecond) ->
    exists b t' ev, drain_loop w fuel start t = Some (b, t', ev) ∧ t <= t'.
Proof.
  intros Hlat. induction n as [|n IH]; intros fuel t Hf Hb;
    (destruct fuel as [|f]; [lia|]); cbn [drain_loop]; unfold_mon;
    pose proof (Hlat t) as Ht;
    (destruct (5 * Minute <? t - start) eqn:E;
     [eexists _, _, _; split; [reflexivity|lia]|]).
  - apply Z.ltb_ge in E. units. lia.
  - pose proof (Hlat (t + latency w t)) as Ht1.
    destruct (all_done (ci_AllJobDetail w (t + latency w t))).
    { eexists _, _, _. split; [reflexivity|lia]. }
    pose proof (Hlat (t + latency w t + latency w (t + latency w t))) as Ht2.
    destruct (IH f (t + latency w t + latency w (t + latency w t)
                    + 100 * Millisecond
                    + latency w (t + latency w t + latency w (t + latency w t))))
      as (b & t' & ev & Heq & Hle); [lia | units; lia |].
    rewrite Heq. eexists _, _, _. split; [reflexivity|]. units. lia.
Qed.

(** As long as no operation takes negative time the handler returns, with
    one of the four answers, on a response whose status line was already
    written as 200. *)
Lemma handleWait_total w t0 :
  (forall t, 0 <= latency w t) ->
  exists r o,
    handleWait w enough t0 = Some r
    ∧ outcome (response r) = Some o
    ∧ code (response r) = StatusOK.
Proof.
  intros Hlat. unfold handleWait, handleWait_body. unfold_mon.
  pose proof (Hlat t0) as H0. pose proof (Hlat (t0 + latency w t0)) as H1.
  destruct (arrival_loop_total w (t0 + latency w t0) Hlat 300 enough
              (t0 + latency w t0 + latency w (t0 + latency w t0)))
    as (ta & eva & -> & Hle); [unfold enough; lia | units; lia |].
  destruct (length (ci_ListJobs w ta) =? 0)%nat.
  { eexists _, NoJobs. repeat split. }
  pose proof (Hlat ta) as H2. pose proof (Hlat (ta + latency w ta)) as H3.
  destruct (drain_loop_total w (ta + latency w ta) Hlat 3001 enough
              (ta + latency w ta + latency w (ta + latency w ta)))
    as (b & tb & evb & -> & Hle'); [unfold enough; lia | units; lia |].
  destruct b.
  { eexists _, Timeout. repeat split. }
  destruct (first_not_success (ci_AllJobDetail w tb)).
  - eexists _, SomeFailed. repeat split.
  - eexists _, AllSucceeded. repeat split.
Qed.

(** The four answers, on stores that do not change while the handler
    waits. *)
Example wait_no_jobs :
  (fun r => (outcome (response r), finished r))
    <$> handleWait (still NewCIServer) enough 0
  = Some (Some NoJobs, 30 * Second).
Proof. vm_compute. reflexivity. Qed.

Example wait_timeout :
  (fun r => (outcome (response r), finished r))
    <$> handleWait (still one_job_running) enough 0
  = Some (Some Timeout, 5 * Minute + 100 * Millisecond).
Proof. vm_compute. reflexivity. Qed.

Example wait_all_succeeded :
  (fun r => (outcome (response r), finished r))
    <$> handleWait (still one_job_done) enough 0
  = Some (Some AllSucceeded, 0).
Proof. vm_compute. reflexivity. Qed.

Example wait_some_failed :
  (fun r => (outcome (response r), code (response r)))
    <$> handleWait (still one_job_failed) enough 0
  = Some (Some SomeFailed, StatusOK).
Proof. vm_compute. reflexivity. Qed.

(** *** Where the answer of the handler comes from *)

Lemma drain_loop_done w start : forall fuel t t' ev,
  drain_loop w fuel start t = Some (false, t', ev) ->
  exists pre tpoll,
    ev = pre ++ [CallAllJobDetail tpoll]
    ∧ all_done (ci_AllJobDetail w tpoll) = true
    ∧ t' = tpoll + latency w tpoll.
Proof.
  induction fuel as [|f IH]; intros t t' ev; [done|].
  cbn [drain_loop]. unfold_mon.
  destruct (5 * Minute <? t - start); [done|].
  destruct (all_done (ci_AllJobDetail w (t + latency w t))) eqn:Hd.
  { intros [= <- <-]. by exists [], (t + latency w t). }
  destruct (drain_loop w f start _) as [[[b t1] e1]|] eqn:E; [|done].
  intros [= -> <- <-]. destruct (IH _ _ _ E) as (pre & tpoll & -> & Hall & Ht).
  exists (CallAllJobDetail (t + latency w t)
            :: Sleep (t + latency w t + latency w (t + latency w t))
                 (100 * Millisecond) :: pre), tpoll.
  done.
Qed.

Lemma first_not_success_None detail :
  first_not_success detail = None
  <-> Forall (fun j => Status j = JobStatusSuccess) detail.
Proof.
  induction detail as [|j l IH]; cbn; [by split|].
  rewrite Forall_cons. case_bool_decide as Hj.
  - split; [done|]. by intros [? _].
  - rewrite IH. tauto.
Qed.

Lemma all_done_terminal detail :
  all_done detail = true
  <-> Forall (fun j => terminal (Status j) = true) detail.
Proof.
  induction detail as [|j l IH]; cbn; [by split|].
  rewrite Forall_cons, <- IH.
  destruct (Status j); repeat (case_bool_decide; try discriminate); cbn;
    intuition congruence.
Qed.

(** When the handler answers that all jobs succeeded or that one failed,
    its last two calls are the poll on which every job was terminal and one
    more read of the details, and the answer is taken from that second
    read: all succeeded exactly when every job in it is a success. *)
Lemma handleWait_resolution w fuel t0 r :
  handleWait w fuel t0 = Some r ->
  outcome (response r) = Some AllSucceeded
  ∨ outcome (response r) = Some SomeFailed ->
  exists pre tpoll,
    events r = pre ++ [CallAllJobDetail tpoll;
                       CallAllJobDetail (tpoll + latency w tpoll)]
    ∧ all_done (ci_AllJobDetail w tpoll) = true
    ∧ (outcome (response r) = Some AllSucceeded
       <-> Forall (fun j => Status j = JobStatusSuccess)
             (ci_AllJobDetail w (tpoll + latency w tpoll))).
Proof.
  unfold handleWait, handleWait_body. unfold_mon.
  destruct (arrival_loop w fuel _ _) as [[[u ta] eva]|]; [|done].
  destruct (length (ci_ListJobs w ta) =? 0)%nat.
  { intros [= <-]. cbn. intros [?|?]; discriminate. }
  destruct (drain_loop w fuel _ _) as [[[b tb] evb]|] eqn:E; [|done].
  destruct b.
  { intros [= <-]. cbn. intros [?|?]; discriminate. }
  apply drain_loop_done in E as (pre & tpoll & -> & Hall & ->).
  destruct (first_not_success (ci_AllJobDetail w (tpoll + latency w tpoll)))
    eqn:Hf; intros [= <-] _; cbn;
    exists (eva ++ CallListJobs ta :: pre), tpoll;
    (split; [by rewrite <- !app_assoc|]); (split; [done|]);
    rewrite <- first_not_success_None, Hf; done.
Qed.

(** Without a change of the store between those two reads the answer is
    the one the poll itself would give: all succeeded exactly when every
    job seen terminal is a success, one failed exactly when one of them has
    status failure. *)
Lemma handleWait_resolution_stable w fuel t0 r :
  handleWait w fuel t0 = Some r ->
  outcome (response r) = Some AllSucceeded
  ∨ outcome (response r) = Some SomeFailed ->
  exists pre tpoll,
    events r = pre ++ [CallAllJobDetail tpoll;
                       CallAllJobDetail (tpoll + latency w tpoll)]
    ∧ Forall (fun j => terminal (Status j) = true) (ci_AllJobDetail w tpoll)
    ∧ (ci_AllJobDetail w (tpoll + latency w tpoll) = ci_AllJobDetail w tpoll ->
       (outcome (response r) = Some AllSucceeded
        <-> Forall (fun j => Status j = JobStatusSuccess)
              (ci_AllJobDetail w tpoll))
       ∧ (outcome (response r) = Some SomeFailed
          <-> Exists (fun j => Status j = JobStatusFailure)
                (ci_AllJobDetail w tpoll))).
Proof.
  intros Hr Ho.
  destruct (handleWait_resolution w fuel t0 r Hr Ho) as (pre & tpoll & He & Hd & Hres).
  exists pre, tpoll. split; [done|].
  apply all_done_terminal in Hd. split; [done|]. intros Heq.
  rewrite Heq in Hres. split; [done|].
  rewrite Exists_exists. split.
  - intros Hsf.
    assert (Hn : ~ Forall (fun j => Status j = JobStatusSuccess)
                   (ci_AllJobDetail w tpoll)).
    { rewrite <- Hres, Hsf. intros [=]. }
    apply not_Forall_Exists in Hn; [|apply _].
    apply Exists_exists in Hn as (j & Hin & Hj). exists j. split; [done|].
    rewrite Forall_forall in Hd. specialize (Hd j Hin).
    assert (Status j = JobStatusSuccess ∨ Status j = JobStatusFailure)
      as [Hs|Hf]; [|exfalso; by apply Hj|done].
    clear Hj. revert Hd. destruct (Status j); cbn; intros; auto; discriminate.
  - intros (j & Hin & Hj). destruct Ho as [Ho|Ho]; [|done].
    apply Hres in Ho. rewrite Forall_forall in Ho.
    specialize (Ho j Hin). congruence.
Qed.

Example one_job_done_detail :
  all_job_detail one_job_done =
    [mkJob "01J" JobStatusSuccess "/repo" "HEAD" "echo hello"
       ["Starting job execution"; "Cloning repository: /repo";
        "Checking out commit: HEAD";
        "Repository ready at /tmp/ocuroot-ci-job-1";
        "Repository ready for job execution";
        "Executing command: echo hello"; "> hello";
        "Command executed successfully"]].
Proof. vm_compute. reflexivity. Qed.

(** C2 does not hold when a job is submitted between the last poll of the
    drain loop and the read that decides the outcome: at the poll at 7000
    the only job is a success, the handler leaves the loop, reads the
    details again at 8000, finds the new pending job and answers that a job
    failed, although no job has status failure. *)
Theorem wait_counts_late_job_as_failed :
  exists r,
    handleWait late_submission enough 0 = Some r
    ∧ outcome (response r) = Some SomeFailed
    ∧ events r = [CallListJobs 3000; CallListJobs 4000;
                  CallAllJobDetail 7000; CallAllJobDetail 8000]
    ∧ Status <$> ci_AllJobDetail late_submission 7000 = [JobStatusSuccess]
    ∧ Status <$> ci_AllJobDetail late_submission 8000
      = [JobStatusPending; JobStatusSuccess].
Proof.
  eexists. split; [vm_compute; reflexivity|].
  repeat split; vm_compute; reflexivity.
Qed.

(** *** Cancellation *)

Lemma handleWait_body_ctx w c fuel t0 :
  handleWait_body (with_ctx w c) fuel t0 = handleWait_body w fuel t0.
Proof.
  assert (Ha : forall f start t,
            arrival_loop (with_ctx w c) f start t = arrival_loop w f start t).
  { induction f as [|f IH]; intros start t; [reflexivity|].
    cbn [arrival_loop]. unfold_mon. cbn [with_ctx latency ci_ListJobs].
    destruct (t - start <? 30 * Second); [|reflexivity].
    destruct (0 <? length _)%nat; [reflexivity|]. by rewrite IH. }
  assert (Hd : forall f start t,
            drain_loop (with_ctx w c) f start t = drain_loop w f start t).
  { induction f as [|f IH]; intros start t; [reflexivity|].
    cbn [drain_loop]. unfold_mon. cbn [with_ctx latency ci_AllJobDetail].
    destruct (5 * Minute <? t - start); [reflexivity|].
    destruct (all_done _); [reflexivity|]. by rewrite IH. }
  unfold handleWait_body. unfold_mon.
  cbn [with_ctx latency ci_ListJobs ci_AllJobDetail].
  rewrite Ha. destruct (arrival_loop w fuel _ _) as [[[u ta] eva]|]; [|reflexivity].
  destruct (length _ =? 0)%nat; [reflexivity|].
  rewrite Hd. reflexivity.
Qed.

(** C9 as specified fails: the caller is gone after one
    millisecond, the watcher goroutine reports it, and the handler goes on
    polling the store every 100 ms for the whole second the job runs. *)
Lemma polling_continues_after_cancel :
  exists r,
    handleWait caller_gone enough 0 = Some r
    ∧ printed r = "Context completed first"
    ∧ outcome (response r) = Some AllSucceeded
    ∧ List.filter is_poll (events r)
      = [CallListJobs 0; CallListJobs 0]
        ++ map (fun k => CallAllJobDetail (k * (100 * Millisecond)))
             [0; 1; 2; 3; 4; 5; 6; 7; 8; 9; 10; 10]
    ∧ ~ stops_on_cancel caller_gone r.
Proof.
  eexists. split; [vm_compute; reflexivity|].
  split; [vm_compute; reflexivity|]. split; [vm_compute; reflexivity|].
  split; [vm_compute; reflexivity|].
  intros H.
  specialize (H (1 * Millisecond) (CallAllJobDetail (10 * (100 * Millisecond)))
                eq_refl).
  cbn [ev_time is_poll] in H. vm_compute in H.
  apply H; [|reflexivity|reflexivity].
  repeat (first [apply list_elem_of_here | apply list_elem_of_further]).
Qed.

(** C9, amended: cancelling the request changes nothing but what the
    watcher goroutine prints.  The response, the instant the handler
    returns and every call and sleep it makes are those of the run without
    cancellation; the watcher reports the cancellation if it comes before
    the handler returns; and the two store methods the handler calls leave
    the store, the records and the goroutines as they found them. *)
Theorem cancellation_is_only_reported w c fuel t0 :
  polling <$> handleWait (with_ctx w c) fuel t0 = polling <$> handleWait w fuel t0
  ∧ printed <$> handleWait (with_ctx w c) fuel t0
    = (fun r => match c with
                | Some tc =>
                    if tc <? finished r then "Context completed first"
                    else "Function completed first"
                | None => "Function completed first"
                end) <$> handleWait w fuel t0
  ∧ (forall s, exec s DoListJobs = s ∧ exec s DoAllJobDetail = s).
Proof.
  unfold handleWait. rewrite handleWait_body_ctx.
  destruct (handleWait_body w fuel t0) as [[[r t] evs]|];
    (split; [reflexivity|]); (split; [reflexivity|]);
    intros s; split; by apply exec_read.
Qed.

(** * Further properties *)

(** ** Records over time *)

Lemma exec_keeps_record s a p j :
  heap s !! p = Some j ->
  exists j',
    heap (exec s a) !! p = Some j'
    ∧ Logs j `prefix_of` Logs j'
    ∧ ID j' = ID j ∧ RepoURI j' = RepoURI j
    ∧ Commit j' = Commit j ∧ Command j' = Command j.
Proof.
  intros Hp.
  destruct a as [id x r c cmd|g| | | |];
    try (rewrite exec_read by done; exists j; by repeat split).
  - rewrite exec_schedule. cbn. exists j.
    split; [by apply lookup_app_l_Some|]. by repeat split.
  - cbn. unfold step_goroutine.
    destruct (goroutines s !! g) as [[q [|e es]]|]; try (exists j; by repeat split).
    cbn. destruct (decide (q = p)) as [->|Hne].
    + rewrite list_lookup_alter_eq, Hp. cbn. eexists. split; [done|].
      destruct e; cbn; repeat split; try done. by apply prefix_app_r.
    + rewrite list_lookup_alter_ne by done. exists j. by repeat split.
Qed.

(** X1: whatever the store and the goroutines do, a record that exists is
    never dropped, the identifier and the inputs it was submitted with
    never change, and its log only grows at the end: the log read earlier
    is a prefix of the log read later. *)
Theorem logs_only_grow acts : forall s p j,
  heap s !! p = Some j ->
  exists j',
    heap (run s acts) !! p = Some j'
    ∧ Logs j `prefix_of` Logs j'
    ∧ ID j' = ID j ∧ RepoURI j' = RepoURI j
    ∧ Commit j' = Commit j ∧ Command j' = Command j.
Proof.
  induction acts as [|a acts IH]; intros s p j Hp.
  { exists j. by repeat split. }
  destruct (exec_keeps_record s a p j Hp) as (j1 & Hp1 & Hpre & ? & ? & ? & ?).
  destruct (IH (exec s a) p j1 Hp1) as (j2 & Hp2 & Hpre2 & ? & ? & ? & ?).
  exists j2. split; [done|]. split; [by etrans|]. repeat split; congruence.
Qed.

Lemma logs_only_grow_witness :
  exists j',
    heap (run one_job_running (replicate 5 (DoStep 0))) !! 0%nat = Some j'
    ∧ [] `prefix_of` Logs j'
    ∧ ID j' = "01J" ∧ RepoURI j' = "/repo"
    ∧ Commit j' = "HEAD" ∧ Command j' = "echo hello".
Proof.
  apply (logs_only_grow (replicate 5 (DoStep 0)) one_job_running 0%nat
           (mkJob "01J" JobStatusRunning "/repo" "HEAD" "echo hello" [])).
  vm_compute. reflexivity.
Defined.

(** X2: right after [ScheduleJob] has returned an identifier, [JobDetail]
    of it is the pending record with the submitted inputs and no log line,
    [JobLogs] of it is empty and [ListJobs] has it, also when the identifier
    was already in the map; the entries of all other identifiers are
    untouched. *)
Theorem schedule_then_lookup s id x repoURI commit command :
  exists s' tr,
    ScheduleJob id x repoURI commit command s = Some (id, s', tr)
    ∧ (exists tr',
         JobDetail id s'
         = Some (mkJob id JobStatusPending repoURI commit command [], s', tr'))
    ∧ (exists tr', JobLogs id s' = Some ([], s', tr'))
    ∧ id ∈ list_jobs s'
    ∧ (forall id', id' ≠ id -> jobs s' !! id' = jobs s !! id')
    ∧ (forall p j, heap s !! p = Some j -> heap s' !! p = Some j).
Proof.
  rewrite ScheduleJob_spec. eexists _, _. split; [reflexivity|].
  assert (Hl : (heap s ++ [mkJob id JobStatusPending repoURI commit command []])
               !! length (heap s)
               = Some (mkJob id JobStatusPending repoURI commit command []))
    by (by apply list_lookup_middle).
  split; [|split; [|split; [|split]]].
  - eexists.
    unfold JobDetail, defer_op, act, mapLoad, deref, mbind, Op_bind, mret, Op_ret.
    cbn [jobs heap]. rewrite lookup_insert_eq. cbn [heap]. rewrite Hl. reflexivity.
  - eexists.
    unfold JobLogs, mapLoad, deref, mbind, Op_bind, mret, Op_ret.
    cbn [jobs heap]. rewrite lookup_insert_eq. cbn [heap]. rewrite Hl. reflexivity.
  - apply list_jobs_elem. cbn. rewrite lookup_insert_eq. by eexists.
  - intros id' Hne. cbn. by rewrite lookup_insert_ne.
  - intros p j Hp. cbn. by apply lookup_app_l_Some.
Qed.

(** ** The read methods on stores that executions reach *)

Lemma derefs_spec s ps js :
  Forall2 (fun p j => heap s !! p = Some j) ps js ->
  derefs ps s = Some (js, s, Deref <$> ps).
Proof.
  induction 1 as [|p j ps js Hp _ IH]; [reflexivity|].
  cbn [derefs]. unfold mbind, Op_bind, deref. rewrite Hp, IH.
  unfold mret, Op_ret. cbn. by rewrite app_nil_r.
Qed.

Lemma bound_records s :
  bound s ->
  exists js,
    Forall2 (fun p j => heap s !! p = Some j) (map_to_list (jobs s)).*2 js
    ∧ ID <$> js = (map_to_list (jobs s)).*1.
Proof.
  intros Hb.
  assert (H : forall kvs : list (JobID * nat),
            Forall (fun kv => jobs s !! kv.1 = Some kv.2) kvs ->
            exists js, Forall2 (fun p j => heap s !! p = Some j) kvs.*2 js
                       ∧ ID <$> js = kvs.*1).
  { induction kvs as [|[k p] kvs IH]; intros Hall.
    { exists []. split; [constructor|done]. }
    apply Forall_cons in Hall as [Hk Hall].
    destruct (IH Hall) as (js & HF & Hid).
    destruct (Hb k p Hk) as (j & Hj & Hidj).
    exists (j :: js). split; [by constructor|]. cbn. by rewrite Hidj, Hid. }
  apply H. apply Forall_forall. intros [k p] Hin.
  by apply elem_of_map_to_list in Hin.
Qed.

(** X3: on every store an execution reaches, [AllJobDetail] does not
    panic, leaves the store as it is, and returns one record for each
    identifier [ListJobs] returns, carrying that identifier: as many
    records as identifiers and no identifier twice. *)
Theorem all_detail_matches_list acts :
  exists js tr,
    AllJobDetail (run NewCIServer acts) = Some (js, run NewCIServer acts, tr)
    ∧ ID <$> js ≡ₚ list_jobs (run NewCIServer acts)
    ∧ NoDup (ID <$> js)
    ∧ length js = length (remove_dups (scheduled_ids acts))
    ∧ Forall (fun j => exists p,
                jobs (run NewCIServer acts) !! ID j = Some p
                ∧ heap (run NewCIServer acts) !! p = Some j) js.
Proof.
  set (s := run NewCIServer acts).
  assert (Hb : bound s) by apply bound_run, bound_new.
  destruct (bound_records s Hb) as (js & HF & Hid).
  assert (Hlist : ID <$> js = list_jobs s).
  { unfold list_jobs. by rewrite ListJobs_spec. }
  exists js, ([RLock; MapRange] ++ (Deref <$> (map_to_list (jobs s)).*2)
              ++ [RUnlock]).
  split; [|split; [by rewrite Hlist|split; [|split]]].
  - unfold AllJobDetail, defer_op, act, mapRange, mbind, Op_bind, mret, Op_ret.
    rewrite (derefs_spec s _ js HF). cbn. by rewrite ?app_nil_r.
  - rewrite Hlist. apply list_jobs_NoDup.
  - rewrite <- (length_fmap ID), Hlist.
    apply Permutation_length, NoDup_Permutation.
    + apply list_jobs_NoDup.
    + apply NoDup_remove_dups.
    + intros id. rewrite elem_of_remove_dups, list_jobs_elem.
      unfold s. rewrite jobs_run. cbn. rewrite lookup_empty.
      split; [intros [[? [=]]|?]; done | by right].
  - apply Forall_forall. intros j Hj.
    apply list_elem_of_lookup in Hj as [i Hi].
    destruct (Forall2_lookup_r _ _ _ _ _ HF Hi) as (p & Hp & Hheap).
    exists p. split; [|done].
    apply list_lookup_fmap_Some in Hp as ([k p'] & -> & Hkv).
    assert (Hk : (ID <$> js) !! i = Some (ID j)) by (by rewrite list_lookup_fmap, Hi).
    rewrite Hid in Hk. apply list_lookup_fmap_Some in Hk as ([k' p''] & Hkk & Hkv').
    rewrite Hkv in Hkv'. injection Hkv' as <- <-. cbn in Hkk. rewrite Hkk.
    apply elem_of_map_to_list. by eapply list_elem_of_lookup_2.
Qed.

(** X4: on every store an execution reaches and for every identifier,
    known or not, neither lookup panics and the lines [JobLogs] returns are
    the [Logs] of the record [JobDetail] returns. *)
Theorem logs_agree_with_detail acts jobID :
  exists j tr tr',
    JobDetail jobID (run NewCIServer acts) = Some (j, run NewCIServer acts, tr)
    ∧ JobLogs jobID (run NewCIServer acts)
      = Some (Logs j, run NewCIServer acts, tr')
    ∧ ID j = jobID.
Proof.
  set (s := run NewCIServer acts).
  assert (Hb : bound s) by apply bound_run, bound_new.
  unfold JobDetail, JobLogs, defer_op, act, mapLoad, deref, mbind, Op_bind,
    mret, Op_ret.
  destruct (jobs s !! jobID) as [p|] eqn:Hj.
  - destruct (Hb jobID p Hj) as (j & Hp & Hid). rewrite Hp.
    by eexists j, _, _.
  - by eexists _, _, _.
Qed.

(** ** The mutex *)

Lemma derefs_lock ps s js s' tr st :
  derefs ps s = Some (js, s', tr) -> forall rest, lock_after st (tr ++ rest) = lock_after st rest.
Proof.
  revert js s' tr. induction ps as [|p ps IH]; intros js s' tr; cbn.
  { unfold mret, Op_ret. by intros [= _ _ <-]. }
  unfold mbind, Op_bind, deref.
  destruct (heap s !! p); [|done].
  destruct (derefs ps s) as [[[js1 s1] t1]|] eqn:E; [|done].
  cbn. intros [= _ _ <-] rest. cbn. rewrite app_nil_r. by eapply IH.
Qed.

(** X5: the methods that take the mutex ([ScheduleJob] through [saveJob],
    [ListJobs], [AllJobDetail], [JobDetail]) touch the map only while they
    hold it, write it only under the exclusive lock, and have released it
    when they return. *)
Theorem locking_methods_release s :
  (forall id x repoURI commit command r s' tr,
     ScheduleJob id x repoURI commit command s = Some (r, s', tr) ->
     disciplined Free tr = true ∧ lock_after Free tr = Free
     ∧ exists pre post, tr = pre ++ [Lock; Deref (length (heap s)); MapStore id; Unlock] ++ post)
  ∧ (forall r s' tr,
       ListJobs s = Some (r, s', tr) ->
       disciplined Free tr = true ∧ lock_after Free tr = Free)
  ∧ (forall r s' tr,
       AllJobDetail s = Some (r, s', tr) ->
       disciplined Free tr = true ∧ lock_after Free tr = Free)
  ∧ (forall jobID r s' tr,
       JobDetail jobID s = Some (r, s', tr) ->
       disciplined Free tr = true ∧ lock_after Free tr = Free).
Proof.
  repeat split.
  - revert H. rewrite ScheduleJob_spec. by intros [= _ _ <-].
  - revert H. rewrite ScheduleJob_spec. by intros [= _ _ <-].
  - revert H. rewrite ScheduleJob_spec. intros [= _ _ <-].
    by exists [], [GoStmt (length (heap s)); Deref (length (heap s))].
  - revert H. rewrite ListJobs_spec. by intros [= _ _ <-].
  - revert H. rewrite ListJobs_spec. by intros [= _ _ <-].
  - revert H.
    unfold AllJobDetail, defer_op, act, mapRange, mbind, Op_bind, mret, Op_ret.
    destruct (derefs _ s) as [[[js1 s1] t1]|] eqn:E; [|done].
    intros [= _ _ <-]. cbn. by apply derefs_trace in E.
  - revert H.
    unfold AllJobDetail, defer_op, act, mapRange, mbind, Op_bind, mret, Op_ret.
    destruct (derefs _ s) as [[[js1 s1] t1]|] eqn:E; [|done].
    intros [= _ _ <-]. cbn. by rewrite (derefs_lock _ _ _ _ _ _ E).
  - revert H.
    unfold JobDetail, defer_op, act, mapLoad, deref, mbind, Op_bind, mret, Op_ret.
    destruct (jobs s !! jobID) as [p|]; [|by intros [= _ _ <-]].
    destruct (heap s !! p); [|done]. by intros [= _ _ <-].
  - revert H.
    unfold JobDetail, defer_op, act, mapLoad, deref, mbind, Op_bind, mret, Op_ret.
    destruct (jobs s !! jobID) as [p|]; [|by intros [= _ _ <-]].
    destruct (heap s !! p); [|done]. by intros [= _ _ <-].
Qed.

Lemma locking_methods_release_witness :
  disciplined Free [RLock; MapRange; Deref 0; RUnlock] = true
  ∧ lock_after Free [RLock; MapRange; Deref 0; RUnlock] = Free.
Proof.
  destruct (locking_methods_release one_job_done) as (_ & _ & H & _).
  apply (H (all_job_detail one_job_done) one_job_done).
  vm_compute. reflexivity.
Defined.

(** ** A goroutine run to its end *)

Lemma aligned_run acts : forall s, aligned s -> aligned (run s acts).
Proof.
  induction acts as [|a acts IH]; intros s Hs; [done|].
  cbn. apply IH. by apply exec_lifecycle.
Qed.

Lemma goroutine_to_end g es : forall s j,
  goroutines s !! g = Some (mkGo g es) ->
  heap s !! g = Some j ->
  goroutines (run s (replicate (length es) (DoStep g))) !! g = Some (mkGo g [])
  ∧ heap (run s (replicate (length es) (DoStep g))) !! g = Some (apply_effs j es)
  ∧ jobs (run s (replicate (length es) (DoStep g))) = jobs s
  ∧ (forall q, q ≠ g ->
       heap (run s (replicate (length es) (DoStep g))) !! q = heap s !! q)
  ∧ (forall g', g' ≠ g ->
       goroutines (run s (replicate (length es) (DoStep g))) !! g'
       = goroutines s !! g').
Proof.
  induction es as [|e es IH]; intros s j Hg Hj; [done|].
  cbn [length replicate run fold_left].
  change (fold_left exec ?l ?a) with (run a l).
  assert (Hs : exec s (DoStep g)
               = mkCIServer (jobs s) (alter (fun j => apply_eff j e) g (heap s))
                   (<[g := mkGo g es]> (goroutines s))).
  { cbn. unfold step_goroutine. by rewrite Hg. }
  rewrite Hs.
  destruct (IH (mkCIServer (jobs s) (alter (fun j => apply_eff j e) g (heap s))
                  (<[g := mkGo g es]> (goroutines s))) (apply_eff j e))
    as (H1 & H2 & H3 & H4 & H5).
  { cbn. apply list_lookup_insert_eq. by eapply lookup_lt_Some. }
  { cbn. by rewrite list_lookup_alter_eq, Hj. }
  split; [done|]. split; [done|]. split; [done|]. split.
  - intros q Hq. rewrite H4 by done. cbn. by rewrite list_lookup_alter_ne.
  - intros g' Hg'. rewrite H5 by done. cbn. by rewrite list_lookup_insert_ne.
Qed.

(** X6: a goroutine that is given as many steps as it has effects left
    has then finished, and its job is a success or a failure, whatever the
    collaborators answered; these steps change no other record, no other
    goroutine and no entry of the map. *)
Theorem goroutine_finishes_alone acts g go :
  goroutines (run NewCIServer acts) !! g = Some go ->
  exists j,
    heap (run NewCIServer (acts ++ replicate (length (rest go)) (DoStep g))) !! g
    = Some j
    ∧ terminal (Status j) = true
    ∧ goroutines (run NewCIServer (acts ++ replicate (length (rest go)) (DoStep g)))
        !! g = Some (mkGo g [])
    ∧ jobs (run NewCIServer (acts ++ replicate (length (rest go)) (DoStep g)))
      = jobs (run NewCIServer acts)
    ∧ (forall q, q ≠ g ->
         heap (run NewCIServer (acts ++ replicate (length (rest go)) (DoStep g)))
           !! q = heap (run NewCIServer acts) !! q)
    ∧ (forall g', g' ≠ g ->
         goroutines
           (run NewCIServer (acts ++ replicate (length (rest go)) (DoStep g)))
           !! g' = goroutines (run NewCIServer acts) !! g').
Proof.
  intros Hg. rewrite run_app. set (s := run NewCIServer acts) in *.
  destruct (aligned_run acts NewCIServer aligned_new) as [_ Hal].
  destruct (Hal g go Hg) as (Ht & j & Hj & Hph).
  destruct go as [p es]. cbn [target rest] in Ht, Hph. subst p. cbn [rest].
  destruct (goroutine_to_end g es s j Hg Hj) as (H1 & H2 & H3 & H4 & H5).
  exists (apply_effs j es). split; [done|]. split; [|done].
  rewrite apply_effs_spec. cbn [Status].
  destruct Hph as [(_ & t & Ht & ->)|[(_ & t & Ht & ->)|[Ht ->]]]; done.
Qed.

Lemma goroutine_finishes_alone_witness :
  exists j,
    heap (run NewCIServer (two_jobs ++ replicate 6 (DoStep 1))) !! 1%nat = Some j
    ∧ terminal (Status j) = true
    ∧ heap (run NewCIServer (two_jobs ++ replicate 6 (DoStep 1))) !! 0%nat
      = heap (run NewCIServer two_jobs) !! 0%nat.
Proof.
  destruct (goroutine_finishes_alone two_jobs 1
              (mkGo 1 [MkdirTemp ("/tmp/ocuroot-ci-job-1", None);
                       AppendLog "Cloning repository: /gone";
                       Clone "/gone" "/tmp/ocuroot-ci-job-1"
                         (Some "repository not found");
                       AppendLog "Failed to clone repository: repository not found";
                       RemoveAll "/tmp/ocuroot-ci-job-1";
                       SetStatus JobStatusFailure]))
    as (j & Hj & Ht & _ & _ & Hframe & _).
  - vm_compute. reflexivity.
  - exists j. split; [exact Hj|]. split; [exact Ht|]. by apply Hframe.
Defined.

(** ** The shapes of a pipeline *)

Lemma pipeline_not_acquired x repoURI commit command :
  (forall d, ~ acquired x repoURI commit d) ->
  exists t e,
    pipeline x repoURI commit command
    = SetStatus JobStatusRunning :: AppendLog "Starting job execution"
      :: t ++ [SetStatus JobStatusFailure]
    ∧ List.filter is_exec t = []
    ∧ status_writes t = []
    ∧ (exists l, last (log_writes t) = Some l
                 ∧ l ∈ take 4 (failure_lines e)).
Proof.
  intros Hno. rewrite pipeline_unfold.
  pose proof (cloneAndCheckout_cases x repoURI commit) as Hc.
  destruct (cloneAndCheckout x repoURI commit) as [t [dir err]].
  cbn [fst snd] in *.
  inversion Hc as [d e Hmk|d e Hmk Hcl|d e Hmk Hcl Hop|d e Hmk Hcl Hop Hco
                   |d Hmk Hcl Hop Hco]; subst.
  5: { exfalso. by apply (Hno dir). }
  all: eexists _, e; (split; [reflexivity|]); (split; [reflexivity|]);
    (split; [reflexivity|]); eexists; (split; [reflexivity|]); cbn.
  - apply list_elem_of_here.
  - apply list_elem_of_further, list_elem_of_here.
  - do 2 apply list_elem_of_further. apply list_elem_of_here.
  - do 3 apply list_elem_of_further. apply list_elem_of_here.
Qed.

Lemma acquired_or_not x repoURI commit :
  (exists d, acquired x repoURI commit d)
  ∨ (forall d, ~ acquired x repoURI commit d).
Proof.
  unfold acquired.
  destruct (os_MkdirTemp x "" temp_pattern) as [d [e|]] eqn:Hmk.
  { right. intros d' (H & _). congruence. }
  destruct (git_Clone x repoURI d) as [e|] eqn:Hcl.
  { right. intros d' (H & H' & _). congruence. }
  destruct (git_Open x d) as [e|] eqn:Hop.
  { right. intros d' (H & _ & H' & _). congruence. }
  destruct (git_Checkout x d commit) as [e|] eqn:Hco.
  { right. intros d' (H & _ & _ & H'). congruence. }
  left. by exists d.
Qed.

Lemma pipeline_acquired x repoURI commit command d :
  acquired x repoURI commit d ->
  match strings.Fields command with
  | [] =>
      pipeline x repoURI commit command
      = acquire_effs repoURI commit d
        ++ [AppendLog ("Executing command: " +:+ command);
            AppendLog "Error: empty command";
            SetStatus JobStatusFailure; RemoveAll d]
  | name :: args =>
      pipeline x repoURI commit command
      = acquire_effs repoURI commit d ++ launch_effs x command d name args
  end.
Proof.
  intros (Hmk & Hcl & Hop & Hco). rewrite pipeline_unfold.
  rewrite (cloneAndCheckout_ready x repoURI commit d Hmk Hcl Hop Hco).
  cbn [fst snd].
  destruct (strings.Fields command) as [|name args] eqn:HF.
  - rewrite (executeCommand_blank x command d HF). reflexivity.
  - rewrite (executeCommand_launch x command d name args HF).
    cbn [fst snd]. unfold launch_effs. cbn. by rewrite <- app_assoc.
Qed.

Lemma prefixed_no_exec ls e :
  e ∈ map (fun l => AppendLog ("> " +:+ l)) ls -> is_exec e = false.
Proof. intros (l & -> & _)%list_elem_of_fmap. reflexivity. Qed.

Lemma pipeline_exec_inv x repoURI commit command :
  (length (List.filter is_exec (pipeline x repoURI commit command)) <= 1)%nat
  ∧ (forall name args dir r,
       Exec name args dir r ∈ pipeline x repoURI commit command ->
       acquired x repoURI commit dir
       ∧ strings.Fields command = name :: args
       ∧ r = cmd_CombinedOutput x name args dir
       ∧ exists pre post,
           pipeline x repoURI commit command
           = pre ++ Exec name args dir r :: post
           ∧ Checkout dir commit None ∈ pre
           ∧ (RemoveAll dir ∉ pre)
           ∧ RemoveAll dir ∈ post).
Proof.
  destruct (acquired_or_not x repoURI commit) as [[d Hd]|Hno].
  - pose proof (pipeline_acquired x repoURI commit command d Hd) as Hp.
    destruct (strings.Fields command) as [|name args] eqn:HF; rewrite Hp.
    + split; [cbn; lia|]. intros name args dir r Hin. exfalso.
      cbn in Hin. repeat (apply elem_of_cons in Hin as [[=]|Hin]).
      by apply elem_of_nil in Hin.
    + unfold launch_effs. split.
      { rewrite !List.filter_app. cbn. rewrite is_exec_prefixed. cbn. lia. }
      intros name' args' dir r Hin.
      apply elem_of_app in Hin as [Hin|Hin].
      { exfalso. cbn in Hin. repeat (apply elem_of_cons in Hin as [[=]|Hin]).
        by apply elem_of_nil in Hin. }
      apply elem_of_app in Hin as [Hin|Hin].
      2: { exfalso. apply elem_of_app in Hin as [Hin|Hin].
           - by apply prefixed_no_exec in Hin.
           - repeat (apply elem_of_cons in Hin as [[=]|Hin]).
             by apply elem_of_nil in Hin. }
      apply elem_of_cons in Hin as [[=]|Hin].
      apply list_elem_of_singleton in Hin. injection Hin as -> -> -> ->.
      split; [done|]. split; [done|]. split; [done|].
      eexists (acquire_effs repoURI commit d
               ++ [AppendLog ("Executing command: " +:+ command)]), _.
      split; [by rewrite <- app_assoc|]. split; [|split].
      * cbn. do 7 apply list_elem_of_further. apply list_elem_of_here.
      * cbn. intros Hin. repeat (apply elem_of_cons in Hin as [[=]|Hin]).
        by apply elem_of_nil in Hin.
      * apply elem_of_app. right. do 2 apply list_elem_of_further.
        apply list_elem_of_here.
  - destruct (pipeline_not_acquired x repoURI commit command Hno)
      as (t & e & -> & Hex & _).
    split.
    { cbn. rewrite List.filter_app, Hex. cbn. lia. }
    intros name args dir r Hin. exfalso.
    apply elem_of_cons in Hin as [[=]|Hin].
    apply elem_of_cons in Hin as [[=]|Hin].
    apply elem_of_app in Hin as [Hin|Hin].
    + assert (Hf : Exec name args dir r ∈ List.filter is_exec t).
      { apply list_elem_of_In, List.filter_In. split; [by apply list_elem_of_In|done]. }
      rewrite Hex in Hf. by apply elem_of_nil in Hf.
    + apply list_elem_of_singleton in Hin. discriminate.
Qed.

(** X7: the pipeline launches at most one process, and only after the
    temporary directory was created and clone, open and checkout all
    succeeded; the process is the first field of the command, its
    arguments are the other fields, it runs in that directory, and the
    directory is removed only after it has returned. *)
Theorem process_only_after_acquisition x repoURI commit command :
  (length (List.filter is_exec (pipeline x repoURI commit command)) <= 1)%nat
  ∧ (forall name args dir r,
       Exec name args dir r ∈ pipeline x repoURI commit command ->
       acquired x repoURI commit dir
       ∧ strings.Fields command = name :: args
       ∧ r = cmd_CombinedOutput x name args dir
       ∧ exists pre post,
           pipeline x repoURI commit command
           = pre ++ Exec name args dir r :: post
           ∧ Checkout dir commit None ∈ pre
           ∧ (RemoveAll dir ∉ pre)
           ∧ RemoveAll dir ∈ post).
Proof. apply pipeline_exec_inv. Qed.

Lemma process_only_after_acquisition_witness :
  acquired ext_ok "/repo" "HEAD" "/tmp/ocuroot-ci-job-1"
  ∧ strings.Fields "echo hello" = ["echo"; "hello"].
Proof.
  destruct (process_only_after_acquisition ext_ok "/repo" "HEAD" "echo hello")
    as [_ H].
  destruct (H "echo" ["hello"] "/tmp/ocuroot-ci-job-1"
              ("hello" +:+ String strings.newline "", None))
    as (Ha & HF & _).
  - vm_compute. do 11 apply list_elem_of_further. apply list_elem_of_here.
  - split; [exact Ha | exact HF].
Defined.

Lemma acquired_same_dir x repoURI commit d d' :
  acquired x repoURI commit d -> acquired x repoURI commit d' -> d = d'.
Proof. intros (H & _) (H' & _). congruence. Qed.

Lemma job_after_acquired x id repoURI commit command d :
  acquired x repoURI commit d ->
  match strings.Fields command with
  | [] =>
      Status (job_after x id repoURI commit command) = JobStatusFailure
      ∧ last (Logs (job_after x id repoURI commit command))
        = Some "Error: empty command"
  | name :: args =>
      Status (job_after x id repoURI commit command)
      = match (cmd_CombinedOutput x name args d).2 with
        | Some _ => JobStatusFailure
        | None => JobStatusSuccess
        end
      ∧ last (Logs (job_after x id repoURI commit command))
        = Some (final_log (cmd_CombinedOutput x name args d).2)
  end.
Proof.
  intros Hd. pose proof (pipeline_acquired x repoURI commit command d Hd) as Hp.
  unfold job_after. rewrite apply_effs_spec. cbn [Status Logs].
  destruct (strings.Fields command) as [|name args]; rewrite Hp.
  - split; reflexivity.
  - unfold launch_effs.
    rewrite !status_writes_app, !log_writes_app, status_writes_prefixed.
    split; [reflexivity|].
    cbn [app]. rewrite !app_assoc.
    change (log_writes [AppendLog ?l; SetStatus ?st; RemoveAll ?dd]) with [l].
    by rewrite last_snoc.
Qed.

Lemma job_after_not_acquired x id repoURI commit command :
  (forall d, ~ acquired x repoURI commit d) ->
  Status (job_after x id repoURI commit command) = JobStatusFailure
  ∧ exists e l,
      last (Logs (job_after x id repoURI commit command)) = Some l
      ∧ l ∈ take 4 (failure_lines e).
Proof.
  intros Hno.
  destruct (pipeline_not_acquired x repoURI commit command Hno)
    as (t & e & Hp & _ & Hst & l & Hl & Hin).
  unfold job_after. rewrite apply_effs_spec, Hp. cbn [Status Logs].
  change (status_writes (SetStatus ?s :: AppendLog ?a :: ?r))
    with (s :: status_writes r).
  change (log_writes (SetStatus ?s :: AppendLog ?a :: ?r))
    with (a :: log_writes r).
  rewrite status_writes_app, log_writes_app, Hst. split; [reflexivity|].
  exists e, l. split; [|done].
  cbn. rewrite app_nil_r.
  destruct (log_writes t) as [|l0 ls]; [done|]. by rewrite last_cons_cons.
Qed.

(** X8: a job whose pipeline has run to the end is a success or a
    failure, and it is a success exactly when the temporary directory,
    the clone, the open and the checkout all succeeded, the command has at
    least one field, and the process returned without error. *)
Theorem success_exactly_when_clean x id repoURI commit command :
  (Status (job_after x id repoURI commit command) = JobStatusSuccess
   <-> runs_clean x repoURI commit command)
  ∧ (Status (job_after x id repoURI commit command) = JobStatusFailure
     <-> ~ runs_clean x repoURI commit command).
Proof.
  assert (Hcases :
    (Status (job_after x id repoURI commit command) = JobStatusSuccess
     ∧ runs_clean x repoURI commit command)
    ∨ (Status (job_after x id repoURI commit command) = JobStatusFailure
       ∧ ~ runs_clean x repoURI commit command)).
  { destruct (acquired_or_not x repoURI commit) as [[d Hd]|Hno].
    - pose proof (job_after_acquired x id repoURI commit command d Hd) as H.
      destruct (strings.Fields command) as [|name args] eqn:HF.
      + right. split; [apply H|]. intros (d' & n & a & _ & HF' & _). congruence.
      + destruct H as [Hst _].
        destruct (cmd_CombinedOutput x name args d).2 as [e|] eqn:He.
        * right. split; [done|]. intros (d' & n & a & Hd' & HF' & He').
          rewrite HF in HF'. injection HF' as <- <-.
          rewrite (acquired_same_dir _ _ _ _ _ Hd Hd') in He. congruence.
        * left. split; [done|]. by exists d, name, args.
    - right. split; [by apply job_after_not_acquired|].
      intros (d & _ & _ & Hd & _). by apply (Hno d). }
  destruct Hcases as [[Hs Hc]|[Hf Hn]]; rewrite ?Hs, ?Hf; split; split;
    try done; intros H; try discriminate; by exfalso.
Qed.

(** X9: the last line of the log of a finished job tells how it ended: a
    success ends with "Command executed successfully", a failure with the
    line of the step that failed (temporary directory, clone, open,
    checkout, empty command or command execution). *)
Theorem last_log_line_tells_outcome x id repoURI commit command :
  match Status (job_after x id repoURI commit command) with
  | JobStatusSuccess =>
      last (Logs (job_after x id repoURI commit command))
      = Some "Command executed successfully"
  | JobStatusFailure =>
      exists e l,
        last (Logs (job_after x id repoURI commit command)) = Some l
        ∧ l ∈ failure_lines e
  | _ => False
  end.
Proof.
  destruct (acquired_or_not x repoURI commit) as [[d Hd]|Hno].
  - pose proof (job_after_acquired x id repoURI commit command d Hd) as H.
    destruct (strings.Fields command) as [|name args] eqn:HF.
    + destruct H as [-> ->]. exists "", "Error: empty command".
      split; [done|]. do 4 apply list_elem_of_further. apply list_elem_of_here.
    + destruct H as [-> ->].
      destruct (cmd_CombinedOutput x name args d).2 as [e|]; [|done].
      exists e, ("Command execution failed: " +:+ e). split; [done|].
      do 5 apply list_elem_of_further. apply list_elem_of_here.
  - destruct (job_after_not_acquired x id repoURI commit command Hno)
      as (-> & e & l & Hl & Hin).
    exists e, l. split; [done|]. by eapply subseteq_take.
Qed.

(** ** Lines of output and fields of a command *)

Lemma Split_nl_cons s : exists h t, strings.Split_nl s = h :: t.
Proof.
  induction s as [|c r (h & t & IH)]; cbn; [by eexists _, _|].
  destruct (Ascii.eqb c strings.newline); [by eexists _, _|].
  rewrite IH. by eexists _, _.
Qed.

Lemma concat_cons_char sep c h t :
  String.concat sep (String c h :: t) = String c (String.concat sep (h :: t)).
Proof. by destruct t. Qed.

Lemma Join_Split_nl s : Join_nl (strings.Split_nl s) = s.
Proof.
  unfold Join_nl. induction s as [|c r IH]; [reflexivity|]. cbn [strings.Split_nl].
  destruct (Split_nl_cons r) as (h & t & Hr). rewrite Hr in *.
  destruct (Ascii.eqb c strings.newline) eqn:Ec.
  - apply Ascii.eqb_eq in Ec as ->.
    change (String.concat ?sep ("" :: h :: t))
      with (String.append "" (String.append sep (String.concat sep (h :: t)))).
    rewrite IH. reflexivity.
  - by rewrite concat_cons_char, IH.
Qed.

Lemma Split_nl_one_line s : Forall (fun l => one_line l = true) (strings.Split_nl s).
Proof.
  induction s as [|c r IH]; cbn [strings.Split_nl]; [by repeat constructor|].
  destruct (Ascii.eqb c strings.newline) eqn:Ec; [by constructor|].
  destruct (strings.Split_nl r) as [|h t].
  { constructor; [|constructor]. unfold one_line. cbn. by rewrite Ec. }
  apply Forall_cons in IH as [Hh Ht]. constructor; [|done].
  unfold one_line in *. cbn. by rewrite Ec.
Qed.

(** X10: what [executeCommand] logs from the captured output are the
    pieces between its line feeds, in order and without the empty ones;
    each entry is one non-empty line behind "> ", with no line feed in
    it; joined by line feeds the pieces give the output back, so nothing
    but empty lines is dropped, and an empty output logs nothing. *)
Theorem output_logged_line_by_line output :
  Join_nl (strings.Split_nl output) = output
  ∧ log_writes (log_output (strings.Split_nl output)).1
    = (fun l => "> " +:+ l)
      <$> filter (fun l => l ≠ "") (strings.Split_nl output)
  ∧ Forall (fun e => exists l, e = AppendLog ("> " +:+ l)
                               ∧ l ≠ "" ∧ one_line l = true)
      (log_output (strings.Split_nl output)).1
  ∧ (log_output (strings.Split_nl "")).1 = [].
Proof.
  split; [apply Join_Split_nl|]. rewrite log_output_spec. cbn [fst].
  split; [apply log_writes_prefixed|]. split; [|reflexivity].
  apply Forall_forall. intros e (l & -> & Hl)%list_elem_of_fmap.
  apply list_elem_of_filter in Hl as [Hne Hin].
  exists l. split; [done|]. split; [done|].
  pose proof (Split_nl_one_line output) as H. rewrite Forall_forall in H.
  by apply H.
Qed.

Lemma high_byte_not_space c :
  128 <= strings.byte_val c -> asciiSpace c = false.
Proof.
  intros H. unfold asciiSpace.
  destruct (9 <=? strings.byte_val c) eqn:E1;
    destruct (strings.byte_val c <=? 13) eqn:E2;
    destruct (strings.byte_val c =? 32) eqn:E3; try reflexivity; lia.
Qed.

Lemma not_IsSpace_not_asciiSpace c :
  strings.IsSpace (strings.byte_val c) = false -> asciiSpace c = false.
Proof.
  unfold strings.IsSpace, asciiSpace.
  destruct (((9 <=? _) && (_ <=? 13)) || (_ =? 32)); [|done].
  cbn. discriminate.
Qed.

Lemma substring_0_0 s : substring 0 0 s = "".
Proof. by destruct s. Qed.

Ltac first_bytes := cbn; rewrite ?substring_0_0; cbn.

Lemma decoded_bytes c0 r0 :
  substring 0 (strings.DecodeRuneInString (String c0 r0)).2 (String c0 r0) ≠ ""
  ∧ (strings.IsSpace (strings.DecodeRuneInString (String c0 r0)).1 = false ->
     no_ascii_space
       (substring 0 (strings.DecodeRuneInString (String c0 r0)).2 (String c0 r0))
     = true).
Proof.
  unfold strings.DecodeRuneInString, strings.cont, no_ascii_space.
  destruct (strings.byte_val c0 <? 128) eqn:E0.
  { first_bytes. split; [done|]. intros H%not_IsSpace_not_asciiSpace. by rewrite H. }
  assert (H0 : asciiSpace c0 = false) by (apply high_byte_not_space; lia).
  destruct r0 as [|c1 r1]; [first_bytes; by rewrite H0|].
  destruct ((194 <=? strings.byte_val c0) && (strings.byte_val c0 <=? 223)).
  { destruct ((128 <=? strings.byte_val c1) && (strings.byte_val c1 <=? 191))
      eqn:E1; first_bytes; rewrite H0; [|done].
    rewrite high_byte_not_space by lia. done. }
  destruct (negb ((224 <=? strings.byte_val c0) && (strings.byte_val c0 <=? 244)));
    [first_bytes; by rewrite H0|].
  match goal with
  | |- context [negb ((?l <=? strings.byte_val c1) && _)] =>
      assert (Hlo : 128 <= l) by (repeat case_match; lia);
      set (lo := l) in *; clearbody lo
  end.
  destruct (negb ((lo <=? strings.byte_val c1) && _)) eqn:E1;
    [first_bytes; by rewrite H0|].
  assert (H1 : asciiSpace c1 = false) by (apply high_byte_not_space; lia).
  destruct r1 as [|c2 r2]; [first_bytes; by rewrite H0|].
  destruct (negb ((128 <=? strings.byte_val c2) && (strings.byte_val c2 <=? 191)))
    eqn:E2; [first_bytes; by rewrite H0|].
  assert (H2 : asciiSpace c2 = false) by (apply high_byte_not_space; lia).
  destruct (strings.byte_val c0 <? 240); [first_bytes; by rewrite H0, H1, H2|].
  destruct r2 as [|c3 r3]; [first_bytes; by rewrite H0|].
  destruct (negb ((128 <=? strings.byte_val c3) && (strings.byte_val c3 <=? 191)))
    eqn:E3; [first_bytes; by rewrite H0|].
  assert (H3 : asciiSpace c3 = false) by (apply high_byte_not_space; lia).
  first_bytes. by rewrite H0, H1, H2, H3.
Qed.

Lemma runes_from_good s : forall skip,
  Forall (fun r : Z * string =>
            r.2 ≠ "" ∧ (strings.IsSpace r.1 = false -> no_ascii_space r.2 = true))
    (strings.runes_from skip s).
Proof.
  induction s as [|c r IH]; intros skip; cbn [strings.runes_from]; [constructor|].
  destruct skip as [|k]; [|apply IH].
  pose proof (decoded_bytes c r) as Hd.
  destruct (strings.DecodeRuneInString (String c r)) as [cp w].
  constructor; [exact Hd | apply IH].
Qed.

Lemma no_ascii_space_app a b :
  no_ascii_space (a +:+ b) = no_ascii_space a && no_ascii_space b.
Proof.
  unfold no_ascii_space. induction a as [|c a IH]; [reflexivity|].
  change (String c a +:+ b) with (String c (a +:+ b)).
  cbn [list_ascii_of_string forallb]. by rewrite IH, andb_assoc.
Qed.

Lemma fields_of_clean rs :
  Forall (fun r : Z * string =>
            r.2 ≠ "" ∧ (strings.IsSpace r.1 = false -> no_ascii_space r.2 = true))
    rs ->
  forall cur,
    (forall f, cur = Some f -> f ≠ "" ∧ no_ascii_space f = true) ->
    Forall (fun f => f ≠ "" ∧ no_ascii_space f = true) (strings.fields_of cur rs).
Proof.
  induction 1 as [|[c bytes] rs [Hne Hsp] _ IH]; intros cur Hcur; cbn.
  { destruct cur as [f|]; [|constructor]. constructor; [by apply Hcur|constructor]. }
  cbn [fst snd] in *. destruct (strings.IsSpace c) eqn:Ec.
  - destruct cur as [f|].
    + constructor; [by apply Hcur|]. by apply IH.
    + by apply IH.
  - apply IH. intros f [= <-]. destruct cur as [f0|].
    + destruct (Hcur f0 eq_refl) as [Hf0 Hs0]. split.
      * by destruct f0.
      * by rewrite no_ascii_space_app, Hs0, Hsp.
    + by split; [|apply Hsp].
Qed.

(** X11: no field of a command is empty and no field has a space, tab,
    line feed, vertical tab, form feed or carriage return in it; so the
    program name and the arguments of the process the pipeline launches
    are non-empty words free of ASCII white space. *)
Theorem fields_are_words command :
  Forall (fun f => f ≠ "" ∧ no_ascii_space f = true) (strings.Fields command)
  ∧ (forall x repoURI commit name args dir r,
       Exec name args dir r ∈ pipeline x repoURI commit command ->
       Forall (fun f => f ≠ "" ∧ no_ascii_space f = true) (name :: args)).
Proof.
  assert (H : Forall (fun f => f ≠ "" ∧ no_ascii_space f = true)
                (strings.Fields command)).
  { apply fields_of_clean; [apply runes_from_good|]. by intros f [=]. }
  split; [exact H|].
  intros x repoURI commit name args dir r Hin.
  destruct (pipeline_exec_inv x repoURI commit command) as [_ Hinv].
  destruct (Hinv name args dir r Hin) as (_ & HF & _). by rewrite <- HF.
Qed.

Lemma fields_are_words_witness :
  Forall (fun f => f ≠ "" ∧ no_ascii_space f = true) ["echo"; "hello"].
Proof.
  destruct (fields_are_words "echo hello") as [_ H].
  apply (H ext_ok "/repo" "HEAD" "echo" ["hello"] "/tmp/ocuroot-ci-job-1"
           ("hello" +:+ String strings.newline "", None)).
  vm_compute. do 11 apply list_elem_of_further. apply list_elem_of_here.
Defined.

(** ** More on the wait handler *)

(** X12: when no operation takes negative time [handleWait] returns,
    whatever the store does meanwhile; its answer is one of the four
    messages, and the status of the response is 200 for each of them,
    because the header is written first and the status codes handed to
    [writeJSONNoContentType] (204, 408, 500) are not used. *)
Theorem wait_always_answers_200 w t0 :
  (forall t, 0 <= latency w t) ->
  exists r o,
    handleWait w enough t0 = Some r
    ∧ outcome (response r) = Some o
    ∧ code (response r) = StatusOK
    ∧ body (response r)
      = match o with
        | NoJobs => "no jobs scheduled"
        | Timeout => "timeout waiting for jobs to complete"
        | AllSucceeded => "all jobs completed successfully"
        | SomeFailed => "one or more jobs failed"
        end.
Proof.
  intros Hlat. destruct (handleWait_total w t0 Hlat) as (r & o & Hr & Ho & Hc).
  exists r, o. split; [done|]. split; [done|]. split; [done|].
  unfold outcome in Ho. repeat case_decide; try discriminate;
    injection Ho as <-; done.
Qed.

Lemma wait_always_answers_200_witness :
  exists r o,
    handleWait late_submission enough 0 = Some r
    ∧ outcome (response r) = Some o
    ∧ code (response r) = StatusOK
    ∧ body (response r)
      = match o with
        | NoJobs => "no jobs scheduled"
        | Timeout => "timeout waiting for jobs to complete"
        | AllSucceeded => "all jobs completed successfully"
        | SomeFailed => "one or more jobs failed"
        end.
Proof. apply (wait_always_answers_200 late_submission 0). intros t. cbn. lia. Defined.

(** X13: when [handleWait] answers that all jobs succeeded or that one
    failed, its last poll saw every job terminal; and if the details it
    reads right after are those of that poll, it answers all succeeded
    exactly when every job of the poll is a success and one failed exactly
    when one of them has status failure. *)
Theorem wait_resolution_on_stable_store w fuel t0 r :
  handleWait w fuel t0 = Some r ->
  outcome (response r) = Some AllSucceeded
  ∨ outcome (response r) = Some SomeFailed ->
  exists pre tpoll,
    events r = pre ++ [CallAllJobDetail tpoll;
                       CallAllJobDetail (tpoll + latency w tpoll)]
    ∧ Forall (fun j => terminal (Status j) = true) (ci_AllJobDetail w tpoll)
    ∧ (ci_AllJobDetail w (tpoll + latency w tpoll) = ci_AllJobDetail w tpoll ->
       (outcome (response r) = Some AllSucceeded
        <-> Forall (fun j => Status j = JobStatusSuccess)
              (ci_AllJobDetail w tpoll))
       ∧ (outcome (response r) = Some SomeFailed
          <-> Exists (fun j => Status j = JobStatusFailure)
                (ci_AllJobDetail w tpoll))).
Proof. apply handleWait_resolution_stable. Qed.

Lemma wait_resolution_on_stable_store_witness :
  exists pre tpoll,
    pre ++ [CallAllJobDetail tpoll;
            CallAllJobDetail (tpoll + latency (still one_job_failed) tpoll)]
    = [CallListJobs 0; CallListJobs 0; CallAllJobDetail 0; CallAllJobDetail 0]
    ∧ Forall (fun j => terminal (Status j) = true)
        (ci_AllJobDetail (still one_job_failed) tpoll).
Proof.
  destruct (wait_resolution_on_stable_store (still one_job_failed) enough 0
              (mkResult (mkResponse StatusOK "one or more jobs failed") 0
                 [CallListJobs 0; CallListJobs 0; CallAllJobDetail 0;
                  CallAllJobDetail 0] "Function completed first"))
    as (pre & tpoll & He & Hall & _).
  - vm_compute. reflexivity.
  - right. reflexivity.
  - exists pre, tpoll. split; [symmetry; exact He | exact Hall].
Defined.

Lemma arrival_loop_exit w start :
  (forall t, 0 <= latency w t) ->
  forall fuel t t' ev,
    arrival_loop w fuel start t = Some (tt, t', ev) ->
    t <= t'
    ∧ (30 * Second <= t' - start
       ∨ exists tp, tp <= t' ∧ ci_ListJobs w tp ≠ []).
Proof.
  intros Hlat. induction fuel as [|f IH]; intros t t' ev; [done|].
  cbn [arrival_loop]. unfold_mon. pose proof (Hlat t) as Ht.
  destruct (t - start <? 30 * Second) eqn:E.
  2: { intros [= <- <-]. apply Z.ltb_ge in E. split; [lia|]. left. lia. }
  pose proof (Hlat (t + latency w t)) as Ht1.
  destruct (0 <? length (ci_ListJobs w (t + latency w t)))%nat eqn:El.
  { intros [= <- <-]. split; [lia|]. right. exists (t + latency w t).
    split; [lia|]. intros Hnil. rewrite Hnil in El. discriminate. }
  destruct (arrival_loop w f start _) as [[[[] t1] e1]|] eqn:Ea; [|done].
  intros [= <- <-]. apply IH in Ea as [Hle Hex].
  pose proof (Hlat (t + latency w t + latency w (t + latency w t))).
  split; [units; lia|]. exact Hex.
Qed.

Lemma drain_loop_timed_out w start :
  (forall t, 0 <= latency w t) ->
  forall fuel t t' ev,
    drain_loop w fuel start t = Some (true, t', ev) ->
    5 * Minute < t' - start.
Proof.
  intros Hlat. induction fuel as [|f IH]; intros t t' ev; [done|].
  cbn [drain_loop]. unfold_mon. pose proof (Hlat t) as Ht.
  destruct (5 * Minute <? t - start) eqn:E.
  { intros [= <- <-]. apply Z.ltb_lt in E. lia. }
  destruct (all_done _); [done|].
  destruct (drain_loop w f start _) as [[[b t1] e1]|] eqn:Ed; [|done].
  intros [= -> <- <-]. by apply IH in Ed.
Qed.

(** X14: [handleWait] does not give up early.  When it answers that the
    wait timed out, more than five minutes have passed since it was
    entered; when it answers that no jobs are scheduled, and the store never
    un-lists a job, at least thirty seconds have passed and the store lists
    no job at the instant of its last look. *)
Theorem wait_does_not_give_up_early w fuel t0 r :
  (forall t, 0 <= latency w t) ->
  handleWait w fuel t0 = Some r ->
  (outcome (response r) = Some Timeout -> t0 + 5 * Minute < finished r)
  ∧ (outcome (response r) = Some NoJobs ->
     listing_grows w ->
     t0 + 30 * Second <= finished r
     ∧ exists t, t <= finished r ∧ last (events r) = Some (CallListJobs t)
                 ∧ ci_ListJobs w t = []).
Proof.
  intros Hlat. unfold handleWait, handleWait_body. unfold_mon.
  pose proof (Hlat t0) as H0. pose proof (Hlat (t0 + latency w t0)) as H1.
  destruct (arrival_loop w fuel _ _) as [[[[] ta] eva]|] eqn:Ea; [|done].
  apply (arrival_loop_exit w _ Hlat) in Ea as [Hle Hex].
  pose proof (Hlat ta) as H2.
  destruct (length (ci_ListJobs w ta) =? 0)%nat eqn:El.
  { intros [= <-]. cbn. split; [discriminate|]. intros _ Hgrow.
    assert (Hnil : ci_ListJobs w ta = []).
    { apply Nat.eqb_eq in El. by destruct (ci_ListJobs w ta). }
    destruct Hex as [H30|(tp & Htp & Hne)].
    2: { exfalso. by apply (Hgrow tp ta Htp Hne). }
    split; [lia|]. exists ta. split; [lia|]. split; [|done].
    rewrite ?app_nil_l, ?app_nil_r. by rewrite last_snoc. }
  pose proof (Hlat (ta + latency w ta)) as H3.
  destruct (drain_loop w fuel _ _) as [[[b tb] evb]|] eqn:Ed; [|done].
  destruct b.
  - intros [= <-]. cbn. split; [|discriminate]. intros _.
    apply (drain_loop_timed_out w _ Hlat) in Ed. lia.
  - destruct (first_not_success _); intros [= <-]; cbn; split; discriminate.
Qed.

Lemma wait_does_not_give_up_early_witness :
  0 + 30 * Second <= 30 * Second.
Proof.
  destruct (wait_does_not_give_up_early (still NewCIServer) enough 0
              (mkResult (mkResponse StatusOK "no jobs scheduled") (30 * Second)
                 (flat_map (fun k => [CallListJobs (Z.of_nat k * (100 * Millisecond));
                                      Sleep (Z.of_nat k * (100 * Millisecond))
                                        (100 * Millisecond)])
                    (seq 0 300)
                  ++ [CallListJobs (30 * Second)])
                 "Function completed first"))
    as [_ H].
  - intros t. cbn. lia.
  - vm_compute. reflexivity.
  - destruct (H eq_refl) as [Hle _]; [|exact Hle].
    intros t t' _ Hne. exact Hne.
Defined.

(** ** The REST layer *)

Lemma ascii_compare_lt a b :
  Ascii.compare a b = Lt <-> (N_of_ascii a < N_of_ascii b)%N.
Proof. unfold Ascii.compare. apply N.compare_lt_iff. Qed.

Lemma ascii_compare_gt a b :
  Ascii.compare a b = Gt <-> (N_of_ascii b < N_of_ascii a)%N.
Proof. unfold Ascii.compare. apply N.compare_gt_iff. Qed.

Lemma string_compare_trans s1 : forall s2 s3,
  String.compare s1 s2 ≠ Gt -> String.compare s2 s3 ≠ Gt ->
  String.compare s1 s3 ≠ Gt.
Proof.
  induction s1 as [|c1 s1 IH]; intros [|c2 s2] [|c3 s3]; cbn; try done.
  destruct (Ascii.compare c1 c2) eqn:E12; [| |done];
    destruct (Ascii.compare c2 c3) eqn:E23; try done.
  - apply Ascii.compare_eq_iff in E12. apply Ascii.compare_eq_iff in E23. subst.
    assert (Ascii.compare c3 c3 = Eq) as -> by apply N.compare_refl. apply IH.
  - apply Ascii.compare_eq_iff in E12. subst. by rewrite E23.
  - apply Ascii.compare_eq_iff in E23. subst. by rewrite E12.
  - apply (proj1 (ascii_compare_lt _ _)) in E12.
    apply (proj1 (ascii_compare_lt _ _)) in E23.
    assert (Ascii.compare c1 c3 = Lt) as ->
      by (apply (proj2 (ascii_compare_lt _ _)); lia).
    done.
Qed.

#[global] Instance string_le_trans : Transitive string_le.
Proof.
  intros a b c. unfold string_le, String.leb. intros Hab Hbc.
  pose proof (string_compare_trans a b c) as H.
  destruct (String.compare a b); try discriminate;
    destruct (String.compare b c); try discriminate;
    destruct (String.compare a c); try reflexivity; exfalso; by apply H.
Qed.

#[global] Instance string_le_total : Total string_le.
Proof. intros a b. apply String.leb_total. Qed.

#[global] Instance string_le_antisym : AntiSymm (=) string_le.
Proof. intros a b. apply String.leb_antisym. Qed.

Lemma sort_Strings_unique l l' : l ≡ₚ l' -> sort_Strings l = sort_Strings l'.
Proof.
  intros Hp. unfold sort_Strings.
  apply (Sorted_unique string_le); try apply Sorted_merge_sort; try apply _.
  by rewrite !merge_sort_Permutation.
Qed.

(** X15: the list endpoint answers 200 with the identifiers that
    [ScheduleJob] returned, each once, in ascending byte order, and leaves
    the store as it is; the answer does not depend on the order in which
    the map hands out its keys. *)
Theorem list_endpoint_sorted acts :
  exists l tr,
    handleListJobs (run NewCIServer acts)
    = Some (writeJSON (DataList l) StatusOK, run NewCIServer acts, tr)
    ∧ Sorted string_le l
    ∧ NoDup l
    ∧ l ≡ₚ remove_dups (scheduled_ids acts)
    ∧ (forall ids, ids ≡ₚ list_jobs (run NewCIServer acts) -> sort_Strings ids = l).
Proof.
  set (s := run NewCIServer acts).
  exists (sort_Strings (list_jobs s)), ([RLock; MapRange; RUnlock] ++ []).
  assert (Hperm : sort_Strings (list_jobs s) ≡ₚ list_jobs s)
    by apply merge_sort_Permutation.
  split; [|split; [|split; [|split]]].
  - unfold handleListJobs, mbind, Op_bind. rewrite ListJobs_spec.
    unfold list_jobs. rewrite ListJobs_spec. reflexivity.
  - apply Sorted_merge_sort; apply _.
  - rewrite Hperm. apply list_jobs_NoDup.
  - rewrite Hperm. apply NoDup_Permutation.
    + apply list_jobs_NoDup.
    + apply NoDup_remove_dups.
    + intros id. rewrite elem_of_remove_dups, list_jobs_elem.
      unfold s. rewrite jobs_run. cbn. rewrite lookup_empty.
      split; [intros [[? [=]]|?]; done | by right].
  - intros ids Hids. by apply sort_Strings_unique.
Qed.

(** X16: the submit endpoint creates a job only for a body that decodes
    and has a repository, a commit and a command that are not empty: it
    then answers 201 with the new identifier and the store is the one
    after [ScheduleJob]; in every other case it answers 400 and neither
    the store nor the mutex is touched. *)
Theorem submit_validates id x r s :
  (exists req tr,
     Body r = Some req
     ∧ Req_RepoURI req ≠ "" ∧ Req_Commit req ≠ "" ∧ Req_Command req ≠ ""
     ∧ handleScheduleJob id x r s
       = Some (writeJSON (DataJob (mkJobResponse id "" [] "" "" "")) StatusCreated,
               exec s (DoSchedule id x (Req_RepoURI req) (Req_Commit req)
                         (Req_Command req)),
               tr))
  ∨ (exists message,
       handleScheduleJob id x r s
       = Some (writeError message StatusBadRequest, s, [])
       ∧ (Body r = None
          ∨ exists req, Body r = Some req
                        ∧ (Req_RepoURI req = "" ∨ Req_Commit req = ""
                           ∨ Req_Command req = ""))).
Proof.
  unfold handleScheduleJob. destruct (Body r) as [req|].
  2: { right. eexists. split; [reflexivity|by left]. }
  destruct (String.eqb_spec (Req_RepoURI req) "") as [H1|H1].
  { right. eexists. split; [reflexivity|]. right. exists req. auto. }
  destruct (String.eqb_spec (Req_Commit req) "") as [H2|H2].
  { right. eexists. split; [reflexivity|]. right. exists req. auto. }
  destruct (String.eqb_spec (Req_Command req) "") as [H3|H3].
  { right. eexists. split; [reflexivity|]. right. exists req. auto. }
  left. exists req. eexists. split; [done|]. do 3 (split; [done|]).
  cbn [orb]. unfold mbind, Op_bind. rewrite ScheduleJob_spec, exec_schedule.
  reflexivity.
Qed.

(** X17: a command of white space only is not empty, so the submit
    endpoint accepts it and creates the job; that job launches no process
    and ends in failure, with "Error: empty command" as its last log line
    when the working directory could be acquired. *)
Theorem blank_command_is_accepted_then_fails id x r req s :
  Body r = Some req ->
  Req_RepoURI req ≠ "" -> Req_Commit req ≠ "" -> Req_Command req ≠ "" ->
  blank (Req_Command req) = true ->
  (exists tr,
     handleScheduleJob id x r s
     = Some (writeJSON (DataJob (mkJobResponse id "" [] "" "" "")) StatusCreated,
             exec s (DoSchedule id x (Req_RepoURI req) (Req_Commit req)
                       (Req_Command req)),
             tr))
  ∧ Status (job_after x id (Req_RepoURI req) (Req_Commit req) (Req_Command req))
    = JobStatusFailure
  ∧ List.filter is_exec
      (pipeline x (Req_RepoURI req) (Req_Commit req) (Req_Command req)) = []
  ∧ (forall d,
       acquired x (Req_RepoURI req) (Req_Commit req) d ->
       last (Logs (job_after x id (Req_RepoURI req) (Req_Commit req)
                     (Req_Command req)))
       = Some "Error: empty command").
Proof.
  intros Hb H1 H2 H3 Hblank. apply Fields_nil_blank in Hblank.
  split; [|split; [|split]].
  - unfold handleScheduleJob. rewrite Hb.
    destruct (String.eqb_spec (Req_RepoURI req) ""); [done|].
    destruct (String.eqb_spec (Req_Commit req) ""); [done|].
    destruct (String.eqb_spec (Req_Command req) ""); [done|].
    cbn [orb]. unfold mbind, Op_bind. rewrite ScheduleJob_spec, exec_schedule.
    by eexists.
  - destruct (acquired_or_not x (Req_RepoURI req) (Req_Commit req)) as [[d Hd]|Hno].
    + pose proof (job_after_acquired x id _ _ (Req_Command req) d Hd) as H.
      rewrite Hblank in H. apply H.
    + by apply job_after_not_acquired.
  - destruct (pipeline_exec_inv x (Req_RepoURI req) (Req_Commit req)
                (Req_Command req)) as [_ Hinv].
    destruct (List.filter is_exec _) as [|e l] eqn:E; [done|exfalso].
    assert (Hin : In e (List.filter is_exec
                          (pipeline x (Req_RepoURI req) (Req_Commit req)
                             (Req_Command req)))) by (rewrite E; by left).
    apply List.filter_In in Hin as [Hin He]. destruct e; try discriminate.
    apply list_elem_of_In, Hinv in Hin as (_ & HF & _). congruence.
  - intros d Hd.
    pose proof (job_after_acquired x id _ _ (Req_Command req) d Hd) as H.
    rewrite Hblank in H. apply H.
Qed.

Lemma blank_command_is_accepted_then_fails_witness :
  Status (job_after ext_ok "01J" "/repo" "HEAD" " ") = JobStatusFailure
  ∧ last (Logs (job_after ext_ok "01J" "/repo" "HEAD" " "))
    = Some "Error: empty command".
Proof.
  destruct (blank_command_is_accepted_then_fails "01J" ext_ok
              (mkRequest "POST" "/api/jobs" (Some (mkJobRequest "/repo" "HEAD" " ")))
              (mkJobRequest "/repo" "HEAD" " ") NewCIServer)
    as (_ & Hs & _ & Hl);
    [reflexivity | discriminate | discriminate | discriminate | reflexivity |].
  split; [exact Hs|]. apply (Hl "/tmp/ocuroot-ci-job-1"). by repeat split.
Defined.













(** X19: on every store an execution reaches, the status endpoint and the
    logs endpoint answer 200 for every identifier and leave the store as it
    is; for an identifier that was never scheduled the status endpoint
    answers with status "failure" and empty fields, and the logs endpoint
    with no lines, so neither tells an unknown job by a 404. *)
Theorem job_endpoints_answer_200 acts jobIDStr :
  exists j tr tr',
    handleJobStatus jobIDStr (run NewCIServer acts)
    = Some (writeJSON
              (DataJob (mkJobResponse jobIDStr (JobStatus_string (Status j)) []
                          (RepoURI j) (Commit j) (Command j)))
              StatusOK,
            run NewCIServer acts, tr)
    ∧ handleJobLogs jobIDStr (run NewCIServer acts)
      = Some (writeJSON (DataJob (mkJobResponse jobIDStr "" (Logs j) "" "" ""))
                StatusOK,
              run NewCIServer acts, tr')
    ∧ (jobIDStr ∉ scheduled_ids acts ->
       j = mkJob jobIDStr JobStatusFailure "" "" "" []).
Proof.
  set (s := run NewCIServer acts).
  assert (Hb : bound s) by apply bound_run, bound_new.
  assert (Hin : forall p, jobs s !! (jobIDStr : JobID) = Some p ->
                          jobIDStr ∈ scheduled_ids acts).
  { intros p Hp. assert (Hs : is_Some (jobs s !! (jobIDStr : JobID))) by by eexists.
    unfold s in Hs. rewrite jobs_run in Hs. cbn in Hs.
    rewrite lookup_empty in Hs. by destruct Hs as [[? [=]]|?]. }
  unfold handleJobStatus, handleJobLogs, JobDetail, JobLogs, defer_op, act,
    mapLoad, deref, mbind, Op_bind, mret, Op_ret.
  destruct (jobs s !! (jobIDStr : JobID)) as [p|] eqn:Hj.
  - destruct (Hb jobIDStr p Hj) as (j & Hp & Hid). rewrite Hp.
    exists j. eexists _, _. split; [reflexivity|]. split; [reflexivity|].
    intros Hnot. destruct Hnot. by eapply Hin.
  - eexists (mkJob jobIDStr JobStatusFailure "" "" "" []), _, _.
    split; [reflexivity|]. split; [reflexivity|]. done.
Qed.

Lemma job_endpoints_answer_200_witness :
  exists tr tr',
    handleJobStatus "non-existent-job" NewCIServer
    = Some (writeJSON
              (DataJob (mkJobResponse "non-existent-job" "failure" [] "" "" ""))
              StatusOK, NewCIServer, tr)
    ∧ handleJobLogs "non-existent-job" NewCIServer
      = Some (writeJSON
                (DataJob (mkJobResponse "non-existent-job" "" [] "" "" ""))
                StatusOK, NewCIServer, tr').
Proof.
  destruct (job_endpoints_answer_200 [] "non-existent-job")
    as (j & tr & tr' & H1 & H2 & H3).
  rewrite (H3 (not_elem_of_nil _)) in H1, H2.
  by exists tr, tr'.
Defined.

Lemma handleJobStatus_reads jobIDStr s :
  bound s -> exists w tr, handleJobStatus jobIDStr s = Some (w, s, tr).
Proof.
  intros Hb.
  unfold handleJobStatus, JobDetail, defer_op, act, mapLoad, deref, mbind,
    Op_bind, mret, Op_ret.
  destruct (jobs s !! (jobIDStr : JobID)) as [p|] eqn:Hj.
  - destruct (Hb jobIDStr p Hj) as (j & Hp & _). rewrite Hp. by eexists _, _.
  - by eexists _, _.
Qed.

Lemma handleJobLogs_reads jobIDStr s :
  bound s -> exists w tr, handleJobLogs jobIDStr s = Some (w, s, tr).
Proof.
  intros Hb.
  unfold handleJobLogs, JobLogs, mapLoad, deref, mbind, Op_bind, mret, Op_ret.
  destruct (jobs s !! (jobIDStr : JobID)) as [p|] eqn:Hj.
  - destruct (Hb jobIDStr p Hj) as (j & Hp & _). rewrite Hp. by eexists _, _.
  - by eexists _, _.
Qed.

(** X20: on every store an execution reaches, the handlers of "/api/jobs"
    and of "/api/jobs/" answer every request, whatever its method, path
    and body, without a panic; the handler of "/api/jobs/" never changes
    the store, and the handler of "/api/jobs" changes it only for a POST
    that it answers with 201. *)
Theorem only_accepted_post_changes_store id x r acts :
  (exists w tr,
     route_job r (run NewCIServer acts) = Some (w, run NewCIServer acts, tr))
  ∧ (exists w s' tr,
       route_jobs id x r (run NewCIServer acts) = Some (w, s', tr)
       ∧ (s' = run NewCIServer acts
          ∨ (Method r = "POST" ∧ status w = StatusCreated))).
Proof.
  set (s := run NewCIServer acts).
  assert (Hb : bound s) by apply bound_run, bound_new.
  split.
  - unfold route_job.
    destruct (negb (String.eqb (Method r) "GET")); [by eexists _, _|].
    cbv zeta.
    destruct (_ <? 4)%nat; [by eexists _, _|].
    destruct (_ && _); [by apply handleJobLogs_reads|].
    destruct (_ =? 4)%nat; [by apply handleJobStatus_reads|].
    by eexists _, _.
  - unfold route_jobs.
    destruct (String.eqb_spec (Method r) "GET") as [_|_].
    { unfold handleListJobs, mbind, Op_bind. rewrite ListJobs_spec.
      eexists _, _, _. split; [reflexivity|by left]. }
    destruct (String.eqb_spec (Method r) "POST") as [HP|_].
    2: { eexists _, _, _. split; [reflexivity|by left]. }
    unfold handleScheduleJob. destruct (Body r) as [req|].
    2: { eexists _, _, _. split; [reflexivity|by left]. }
    destruct (_ || _).
    { eexists _, _, _. split; [reflexivity|by left]. }
    unfold mbind, Op_bind. rewrite ScheduleJob_spec.
    eexists _, _, _. split; [reflexivity|by right].
Qed.
